(** * Trie auto-suggest: the prefix tree of [trie_autosuggest.cpp]

    A shallow embedding of [struct TrieNode] and [class Trie] (the core of
    the program: [insert], [getSuggestions], [getWordCount] and their
    private helpers), followed by the properties of the specification.

    Modelling choices.
    - A [std::string] is a list of bytes, [list ascii].
    - [unordered_map<char, TrieNode*>] is an association list: the order
      of its bindings is the (unspecified) iteration order of the map.
      A new key is put at the end; that the results do not depend on this
      choice is a theorem ([node_equiv] below).
    - The nodes are owned by their parent and never shared, so the heap of
      nodes is the tree itself; the in-place updates of [insert] become a
      rebuilt path.
    - [int wordCount] is a [Z] kept in the range of a 32-bit [int]:
      [wordCount++] is the increment followed by [int_wrap]. Signed
      overflow is undefined in C++; the model takes the two's-complement
      wrap-around that the compilers in use produce, from [INT_MAX] to
      [INT_MIN].
    - [::tolower] and [isalpha] are those of the "C" locale (the program
      never calls [setlocale]): only the 52 ASCII letters are alphabetic,
      and no byte above 127 is. *)

From Stdlib Require Import List Ascii String Bool Arith ZArith Lia.
From Stdlib Require Import Permutation Sorting.Sorted FinFun.
Import ListNotations.

(** ** Strings *)

Definition cstring := list ascii.

(** A string literal of the source. *)
Definition lit (s : string) : cstring := list_ascii_of_string s.

Definition code (c : ascii) : nat := nat_of_ascii c.

(** [isalpha] in the "C" locale. *)
Definition isalpha (c : ascii) : bool :=
  ((65 <=? code c) && (code c <=? 90)) || ((97 <=? code c) && (code c <=? 122)).

(** [::tolower] in the "C" locale. *)
Definition tolower (c : ascii) : ascii :=
  if (65 <=? code c) && (code c <=? 90) then ascii_of_nat (code c + 32) else c.

(** Membership in the set [" \t\n\r"] used by [trim]. *)
Definition is_space (c : ascii) : bool :=
  (code c =? 32) || (code c =? 9) || (code c =? 10) || (code c =? 13).

(** [str.find_first_not_of(" \t\n\r")]; [None] is [string::npos]. *)
Fixpoint find_first_not_of (str : cstring) : option nat :=
  match str with
  | [] => None
  | c :: rest =>
      if is_space c then option_map S (find_first_not_of rest) else Some 0
  end.

(** [str.find_last_not_of(" \t\n\r")]; [None] is [string::npos]. *)
Fixpoint find_last_not_of (str : cstring) : option nat :=
  match str with
  | [] => None
  | c :: rest =>
      match find_last_not_of rest with
      | Some i => Some (S i)
      | None => if is_space c then None else Some 0
      end
  end.

(** [str.substr(pos, n)] for [pos <= str.size()]. *)
Definition substr (str : cstring) (pos n : nat) : cstring :=
  firstn n (skipn pos str).

(** [Trie::trim]. When [first] is found, [last] is found as well
    ([find_last_some]); the branch for [npos] there would make the length
    wrap around to at least the rest of the string. *)
Definition trim (str : cstring) : cstring :=
  match find_first_not_of str with
  | None => []
  | Some first =>
      match find_last_not_of str with
      | Some last => substr str first (last - first + 1)
      | None => skipn first str
      end
  end.

(** [Trie::toLower]. *)
Definition toLower (str : cstring) : cstring := map tolower str.

(** The normalisation both [insert] and [getSuggestions] start with. *)
Definition normalize (text : cstring) : cstring := toLower (trim text).

(** [operator<] of [std::string]: lexicographic on unsigned bytes, a
    proper prefix first. *)
Fixpoint string_lt (a b : cstring) : bool :=
  match a, b with
  | _, [] => false
  | [], _ :: _ => true
  | x :: a', y :: b' =>
      (code x <? code y) || ((code x =? code y) && string_lt a' b')
  end.

(** [a <= b], that is [!(b < a)]. *)
Definition string_le (a b : cstring) : Prop := string_lt b a = false.

(** ** The tree *)

#[warnings="-register-all"]
Inductive TrieNode : Type :=
  mkNode (isEndOfWord : bool) (children : list (ascii * TrieNode)).

Definition isEndOfWord (n : TrieNode) : bool :=
  match n with mkNode e _ => e end.

Definition children (n : TrieNode) : list (ascii * TrieNode) :=
  match n with mkNode _ cs => cs end.

(** [new TrieNode()]. *)
Definition newNode : TrieNode := mkNode false [].

(** The range of [int] and the value an [int] takes after an operation
    whose mathematical result is [z]. *)
Definition INT_MIN : Z := -2147483648.

Definition INT_MAX : Z := 2147483647.

Definition int_wrap (z : Z) : Z :=
  ((z + 2147483648) mod 4294967296 - 2147483648)%Z.

(** [class Trie]; [wordCount] holds the value of an [int]. *)
Record Trie : Type := mkTrie { root : TrieNode; wordCount : Z }.

(** [Trie()]. *)
Definition emptyTrie : Trie := mkTrie newNode 0.

(** [children.find(ch)]: the binding of [ch], if any. *)
Fixpoint find (ch : ascii) (m : list (ascii * TrieNode)) : option TrieNode :=
  match m with
  | [] => None
  | (k, c) :: rest => if Ascii.eqb k ch then Some c else find ch rest
  end.

(** The map after [children[ch]] has been created or its node updated. *)
Fixpoint set_child (ch : ascii) (c : TrieNode) (m : list (ascii * TrieNode))
  : list (ascii * TrieNode) :=
  match m with
  | [] => [(ch, c)]
  | (k, c0) :: rest =>
      if Ascii.eqb k ch then (k, c) :: rest else (k, c0) :: set_child ch c rest
  end.

(** The loop and the final test of [Trie::insert], from node [current]:
    the subtree after the call, and whether [wordCount] was incremented. *)
Fixpoint insert_from (cleanWord : cstring) (current : TrieNode)
  : TrieNode * bool :=
  match cleanWord with
  | [] =>
      if isEndOfWord current then (current, false)
      else (mkNode true (children current), true)
  | ch :: rest =>
      if negb (isalpha ch) then insert_from rest current
      else
        let child :=
          match find ch (children current) with
          | Some c => c
          | None => newNode
          end in
        let (child', inc) := insert_from rest child in
        (mkNode (isEndOfWord current) (set_child ch child' (children current)),
         inc)
  end.

(** [Trie::insert]. *)
Definition insert (word : cstring) (t : Trie) : Trie :=
  let cleanWord := normalize word in
  match cleanWord with
  | [] => t
  | _ :: _ =>
      let (r, inc) := insert_from cleanWord (root t) in
      mkTrie r (if inc then int_wrap (wordCount t + 1) else wordCount t)
  end.

(** [Trie::searchPrefix], from node [current]; [None] is [nullptr]. *)
Fixpoint searchPrefix (current : TrieNode) (prefix : cstring)
  : option TrieNode :=
  match prefix with
  | [] => Some current
  | ch :: rest =>
      match find ch (children current) with
      | None => None
      | Some c => searchPrefix c rest
      end
  end.

(** [Trie::collectSuggestions]; the vector [results] is threaded. *)
Fixpoint collectSuggestions (node : TrieNode) (currentPrefix : cstring)
  (results : list cstring) : list cstring :=
  match node with
  | mkNode e cs =>
      let results := if e then results ++ [currentPrefix] else results in
      (fix each (cs : list (ascii * TrieNode)) (results : list cstring) :=
         match cs with
         | [] => results
         | (key, child) :: cs' =>
             each cs' (collectSuggestions child (currentPrefix ++ [key]) results)
         end) cs results
  end.

(** [std::sort] on strings, as an insertion sort. [operator<] is a strict
    total order, so the sorted arrangement of a vector is unique
    ([sorted_perm_unique]) and the algorithm does not matter. *)
Fixpoint sort_insert (x : cstring) (l : list cstring) : list cstring :=
  match l with
  | [] => [x]
  | y :: l' => if string_lt y x then y :: sort_insert x l' else x :: l
  end.

Fixpoint sort (l : list cstring) : list cstring :=
  match l with
  | [] => []
  | x :: l' => sort_insert x (sort l')
  end.

(** [Trie::getSuggestions]. *)
Definition getSuggestions (prefix : cstring) (t : Trie) : list cstring :=
  let cleanPrefix := normalize prefix in
  let prefixNode :=
    match cleanPrefix with
    | [] => Some (root t)
    | _ :: _ => searchPrefix (root t) cleanPrefix
    end in
  match prefixNode with
  | None => []
  | Some node => sort (collectSuggestions node cleanPrefix [])
  end.

(** [Trie::getWordCount]. *)
Definition getWordCount (t : Trie) : Z := wordCount t.

(** ** Sequences of operations *)

Inductive Op : Type :=
| OpInsert (word : cstring)
| OpSuggest (prefix : cstring)
| OpCount.

Inductive Out : Type :=
| OutVoid
| OutWords (ws : list cstring)
| OutInt (n : Z).

(** One call on the index: the state after it and what it returns.
    [getSuggestions] and [getWordCount] are [const] methods. *)
Definition step (op : Op) (t : Trie) : Trie * Out :=
  match op with
  | OpInsert w => (insert w t, OutVoid)
  | OpSuggest p => (t, OutWords (getSuggestions p t))
  | OpCount => (t, OutInt (getWordCount t))
  end.

Definition run (ops : list Op) (t : Trie) : Trie :=
  fold_left (fun s op => fst (step op s)) ops t.

(** The index after inserting the words of [ws], in order, into [t]. *)
Definition insert_all (ws : list cstring) (t : Trie) : Trie :=
  fold_left (fun s w => insert w s) ws t.

(** The same from [Trie()]. *)
Definition build (ws : list cstring) : Trie := insert_all ws emptyTrie.

(** ** What the tree stores *)

(** The words below a node: the edge characters on the way to each
    terminal node of its subtree. *)
Fixpoint words (n : TrieNode) : list cstring :=
  match n with
  | mkNode e cs =>
      (if e then [[]] else []) ++
      flat_map (fun kc : ascii * TrieNode =>
                  let (k, c) := kc in map (cons k) (words c)) cs
  end.

(** The number of nodes of a subtree whose [isEndOfWord] is set. *)
Fixpoint count_terminal (n : TrieNode) : nat :=
  match n with
  | mkNode e cs =>
      (if e then 1 else 0) +
      list_sum (map (fun kc : ascii * TrieNode =>
                       let (_, c) := kc in count_terminal c) cs)
  end.

(** No two children of a node share a key, and every key is alphabetic. *)
Fixpoint well_formed (n : TrieNode) : Prop :=
  match n with
  | mkNode _ cs =>
      NoDup (map fst cs) /\
      Forall (fun k => isalpha k = true) (map fst cs) /\
      (fix each (cs : list (ascii * TrieNode)) : Prop :=
         match cs with
         | [] => True
         | (_, c) :: cs' => well_formed c /\ each cs'
         end) cs
  end.

(** The characters of a cleaned word that [insert] makes edges of. *)
Definition letters (cleanWord : cstring) : cstring := filter isalpha cleanWord.

(** The form under which [insert] stores a word. *)
Definition stored_form (word : cstring) : cstring := letters (normalize word).

(** Whether [path] leads from [n] to a terminal node. *)
Definition terminal_at (n : TrieNode) (path : cstring) : bool :=
  match searchPrefix n path with
  | Some m => isEndOfWord m
  | None => false
  end.

(** ** Invariants and views of the index *)

(** [wordCount] is the number of terminal nodes. *)
Definition counts_terminals (t : Trie) : Prop :=
  wordCount t = Z.of_nat (count_terminal (root t)).

(** [wordCount] is the number of terminal nodes as an [int] holds it. *)
Definition wraps_terminals (t : Trie) : Prop :=
  wordCount t = int_wrap (Z.of_nat (count_terminal (root t))).

(** The words "a", "aa", ... up to [n] letters, and their insertion. *)
Definition many_words (n : nat) : list cstring :=
  map (repeat "a"%char) (seq 1 n).

Definition many_inserts (n : nat) : list Op := map OpInsert (many_words n).

(** The words given to [insert] by a sequence of calls. *)
Fixpoint inserted (ops : list Op) : list cstring :=
  match ops with
  | [] => []
  | OpInsert w :: ops' => w :: inserted ops'
  | _ :: ops' => inserted ops'
  end.

(** Whether [insert] either drops the word as empty or finds a letter in it. *)
Definition keeps_a_letter (word : cstring) : bool :=
  match normalize word with
  | [] => true
  | _ :: _ => existsb isalpha (normalize word)
  end.

(** ** Iteration order of the child maps *)

(** [node_equiv n1 n2]: [n2] is [n1] with the bindings of every child
    map listed in some other order. *)
Fixpoint node_equiv (n1 n2 : TrieNode) : Prop :=
  match n1, n2 with
  | mkNode e1 cs1, mkNode e2 cs2 =>
      e1 = e2 /\
      exists cs', Permutation cs2 cs' /\
        (fix each (l1 l2 : list (ascii * TrieNode)) : Prop :=
           match l1, l2 with
           | [], [] => True
           | (k1, c1) :: r1, (k2, c2) :: r2 =>
               k1 = k2 /\ node_equiv c1 c2 /\ each r1 r2
           | _, _ => False
           end) cs1 cs'
  end.

(** Two indexes that differ in iteration order only. *)
Definition trie_equiv (t1 t2 : Trie) : Prop :=
  node_equiv (root t1) (root t2) /\ wordCount t1 = wordCount t2.

(** The states the index can be in after a sequence of calls, when after
    each call every child map may iterate in any order. *)
Inductive reaches : list Op -> Trie -> Prop :=
| reaches_nil : reaches [] emptyTrie
| reaches_step ops op t t' :
    reaches ops t -> trie_equiv (fst (step op t)) t' ->
    reaches (ops ++ [op]) t'.

(** Two bindings with the same key and such nodes. *)
Definition same_binding (a b : ascii * TrieNode) : Prop :=
  fst a = fst b /\ node_equiv (snd a) (snd b).

(** ** Further views: prefixes, letters, nodes *)

(** Whether [y] starts with [p]. *)
Fixpoint starts_with (p y : cstring) : bool :=
  match p, y with
  | [], _ => true
  | _ :: _, [] => false
  | a :: p', b :: y' => Ascii.eqb a b && starts_with p' y'
  end.

(** The lowercase ASCII letters. *)
Definition islower (c : ascii) : bool := (97 <=? code c) && (code c <=? 122).

(** The uppercase ASCII letters. *)
Definition isupper (c : ascii) : bool := (65 <=? code c) && (code c <=? 90).

(** A property of a node that holds at every node of its subtree. *)
Fixpoint every_node (Q : TrieNode -> Prop) (n : TrieNode) : Prop :=
  Q n /\
  match n with
  | mkNode _ cs =>
      (fix each (cs : list (ascii * TrieNode)) : Prop :=
         match cs with
         | [] => True
         | (_, c) :: cs' => every_node Q c /\ each cs'
         end) cs
  end.

(** The keys of the node are lowercase letters. *)
Definition lower_keys (n : TrieNode) : Prop :=
  Forall (fun k => islower k = true) (map fst (children n)).

(** The keys of the node are distinct lowercase letters, at most 26. *)
Definition small_alphabet (n : TrieNode) : Prop :=
  NoDup (map fst (children n)) /\ lower_keys n /\
  List.length (children n) <= 26.

(** The node ends a word or has a child. *)
Definition live (n : TrieNode) : Prop :=
  isEndOfWord n = true \/ children n <> [].

(** No child of the node is a leaf that ends no word. *)
Definition live_children (n : TrieNode) : Prop :=
  Forall (fun kc : ascii * TrieNode => live (snd kc)) (children n).

(** ** Allocation and release of nodes *)

(** [Trie::destroyTrie] on a node of the tree, as the number of [delete]s
    it executes: those of the calls on the children, then its own. The
    pointers of a child map are never null. *)
Fixpoint destroyTrie (node : TrieNode) : nat :=
  match node with
  | mkNode _ cs =>
      list_sum (map (fun kc : ascii * TrieNode =>
                       let (_, child) := kc in destroyTrie child) cs) + 1
  end.

(** The number of [new TrieNode()] the loop of [Trie::insert] executes
    from node [current]: one for each letter whose edge is missing. *)
Fixpoint insert_news (cleanWord : cstring) (current : TrieNode) : nat :=
  match cleanWord with
  | [] => 0
  | ch :: rest =>
      if negb (isalpha ch) then insert_news rest current
      else
        match find ch (children current) with
        | Some c => insert_news rest c
        | None => 1 + insert_news rest newNode
        end
  end.

(** The [new TrieNode()] of one call on the index. *)
Definition news (op : Op) (t : Trie) : nat :=
  match op with
  | OpInsert w =>
      match normalize w with
      | [] => 0
      | _ :: _ => insert_news (normalize w) (root t)
      end
  | _ => 0
  end.

(** The [new TrieNode()] of a sequence of calls from the index [t]. *)
Fixpoint allocations (ops : list Op) (t : Trie) : nat :=
  match ops with
  | [] => 0
  | op :: ops' => news op t + allocations ops' (fst (step op t))
  end.

(** ** The "add word" branch of [main] *)

(** Its test [word.empty() || word.find_first_not_of(" \t\n\r") == npos]. *)
Definition is_blank (word : cstring) : bool :=
  match word with
  | [] => true
  | _ :: _ =>
      match find_first_not_of word with
      | None => true
      | Some _ => false
      end
  end.

(** Which of its three messages the branch prints. *)
Inductive AddMessage : Type :=
| CannotAddEmpty
| SuccessfullyAdded (newCount : Z)
| AlreadyExists.

(** The branch, without the text of the messages: the index after it and
    the message it chooses by comparing the [int] counts around
    [insert]. *)
Definition addWord (word : cstring) (trie : Trie) : Trie * AddMessage :=
  if is_blank word then (trie, CannotAddEmpty)
  else
    let oldCount := getWordCount trie in
    let trie' := insert word trie in
    let newCount := getWordCount trie' in
    if (newCount >? oldCount)%Z then (trie', SuccessfullyAdded newCount)
    else (trie', AlreadyExists).

(** ** Induction on the tree *)

Section TrieNode_induction.

Variable P : TrieNode -> Prop.

Hypothesis step_node :
  forall e cs, Forall (fun kc => P (snd kc)) cs -> P (mkNode e cs).

Fixpoint TrieNode_nested_ind (n : TrieNode) : P n :=
  match n with
  | mkNode e cs =>
      step_node e cs
        ((fix each (cs : list (ascii * TrieNode))
            : Forall (fun kc => P (snd kc)) cs :=
            match cs with
            | [] => Forall_nil _
            | (k, c) :: cs' =>
                @Forall_cons _ (fun kc => P (snd kc)) (k, c) cs'
                  (TrieNode_nested_ind c) (each cs')
            end) cs)
  end.

End TrieNode_induction.

(** ** The order on strings and [sort] *)

Ltac bool_arith :=
  repeat match goal with
    | H : _ || _ = true |- _ => apply orb_true_iff in H; destruct H
    | H : _ && _ = true |- _ => apply andb_true_iff in H; destruct H
    | H : _ || _ = false |- _ => apply orb_false_iff in H; destruct H
    | H : (_ <? _) = true |- _ => apply Nat.ltb_lt in H
    | H : (_ <? _) = false |- _ => apply Nat.ltb_ge in H
    | H : (_ =? _) = true |- _ => apply Nat.eqb_eq in H
    | H : (_ =? _) = false |- _ => apply Nat.eqb_neq in H
    | H : (_ <=? _) = true |- _ => apply Nat.leb_le in H
    | H : (_ <=? _) = false |- _ => apply Nat.leb_gt in H
    end.

Lemma code_inj (x y : ascii) : code x = code y -> x = y.
Proof.
  unfold code; intros E.
  rewrite <- (ascii_nat_embedding x), <- (ascii_nat_embedding y).
  now f_equal.
Qed.

Lemma string_lt_irrefl (a : cstring) : string_lt a a = false.
Proof.
  induction a as [|x a IH]; simpl; [reflexivity|].
  rewrite Nat.ltb_irrefl, Nat.eqb_refl, IH; reflexivity.
Qed.

Lemma string_lt_trans (a b c : cstring) :
  string_lt a b = true -> string_lt b c = true -> string_lt a c = true.
Proof.
  revert b c; induction a as [|x a IH]; intros [|y b] [|z c]; simpl;
    try discriminate; try reflexivity.
  intros H1 H2; bool_arith; apply orb_true_iff.
  - left; apply Nat.ltb_lt; lia.
  - left; apply Nat.ltb_lt; lia.
  - left; apply Nat.ltb_lt; lia.
  - right; apply andb_true_iff; split; [apply Nat.eqb_eq; lia | eauto].
Qed.

(** [operator<] is total: two strings neither of which is below the
    other are the same string. *)
Lemma string_lt_total (a b : cstring) :
  string_lt a b = false -> string_lt b a = false -> a = b.
Proof.
  revert b; induction a as [|x a IH]; intros [|y b]; simpl;
    try discriminate; try reflexivity.
  intros H1 H2; bool_arith.
  assert (E : code x = code y) by lia.
  apply code_inj in E; subst y.
  rewrite Nat.eqb_refl in *; simpl in *.
  f_equal; auto.
Qed.

Lemma string_lt_asym (a b : cstring) :
  string_lt a b = true -> string_lt b a = false.
Proof.
  intros H; destruct (string_lt b a) eqn:E; [|reflexivity].
  rewrite <- (string_lt_irrefl a); symmetry.
  eapply string_lt_trans; eassumption.
Qed.

(** [string_le] is "below or equal" for [operator<]. *)
Lemma string_le_iff (a b : cstring) :
  string_le a b <-> a = b \/ string_lt a b = true.
Proof.
  unfold string_le; split.
  - intros H; destruct (string_lt a b) eqn:E; [now right | left].
    now apply string_lt_total.
  - intros [->|H]; [apply string_lt_irrefl | now apply string_lt_asym].
Qed.

Lemma string_le_refl (a : cstring) : string_le a a.
Proof. apply string_lt_irrefl. Qed.

Lemma string_le_trans (a b c : cstring) :
  string_le a b -> string_le b c -> string_le a c.
Proof.
  unfold string_le; intros H1 H2.
  destruct (string_lt c a) eqn:E; [|reflexivity].
  destruct (string_lt a b) eqn:F.
  - rewrite (string_lt_trans _ _ _ E F) in H2; discriminate.
  - rewrite (string_lt_total _ _ F H1) in E; congruence.
Qed.

Lemma string_le_antisym (a b : cstring) :
  string_le a b -> string_le b a -> a = b.
Proof. unfold string_le; intros; now apply string_lt_total. Qed.

Lemma sort_insert_perm (x : cstring) (l : list cstring) :
  Permutation (sort_insert x l) (x :: l).
Proof.
  induction l as [|y l IH]; simpl; [reflexivity|].
  destruct (string_lt y x); [|reflexivity].
  rewrite IH; apply perm_swap.
Qed.

Lemma sort_perm (l : list cstring) : Permutation (sort l) l.
Proof.
  induction l as [|x l IH]; simpl; [reflexivity|].
  rewrite sort_insert_perm; now constructor.
Qed.

Lemma sort_insert_sorted (x : cstring) (l : list cstring) :
  Sorted string_le l -> Sorted string_le (sort_insert x l).
Proof.
  induction l as [|y l IH]; simpl; intros S.
  - repeat constructor.
  - destruct (string_lt y x) eqn:E.
    + inversion S as [|? ? S' Hd]; subst.
      constructor; [auto|].
      destruct l as [|z l]; simpl in *.
      * constructor; now apply string_lt_asym.
      * destruct (string_lt z x); constructor.
        -- now inversion Hd.
        -- now apply string_lt_asym.
    + constructor; [assumption|constructor; exact E].
Qed.

Lemma sort_sorted (l : list cstring) : Sorted string_le (sort l).
Proof.
  induction l as [|x l IH]; simpl; [constructor|].
  now apply sort_insert_sorted.
Qed.

(** A vector has one sorted arrangement only. *)
Lemma sorted_perm_unique (l1 l2 : list cstring) :
  Sorted string_le l1 -> Sorted string_le l2 -> Permutation l1 l2 -> l1 = l2.
Proof.
  intros S1 S2.
  apply Sorted_StronglySorted in S1; [|exact string_le_trans].
  apply Sorted_StronglySorted in S2; [|exact string_le_trans].
  revert l2 S2; induction S1 as [|x l1 S1 IH F1]; intros l2 S2 P.
  - apply Permutation_nil in P; now subst.
  - destruct S2 as [|y l2 S2 F2].
    + apply Permutation_sym, Permutation_nil in P; discriminate.
    + assert (E : x = y).
      { rewrite Forall_forall in F1, F2.
        assert (Iy : In y (x :: l1))
          by (eapply Permutation_in; [symmetry; exact P | now left]).
        assert (Ix : In x (y :: l2))
          by (eapply Permutation_in; [exact P | now left]).
        destruct Iy as [?|Iy]; [auto|].
        destruct Ix as [?|Ix]; [auto|].
        apply string_le_antisym; auto. }
      subst y; f_equal; apply IH; [assumption|].
      eapply Permutation_cons_inv; exact P.
Qed.

Lemma sort_of_perm (l1 l2 : list cstring) :
  Permutation l1 l2 -> sort l1 = sort l2.
Proof.
  intros P; apply sorted_perm_unique; try apply sort_sorted.
  now rewrite !sort_perm.
Qed.

Lemma sort_In (x : cstring) (l : list cstring) : In x (sort l) <-> In x l.
Proof.
  split; apply Permutation_in; [|symmetry]; apply sort_perm.
Qed.

Lemma sort_NoDup (l : list cstring) : NoDup l -> NoDup (sort l).
Proof.
  apply Permutation_NoDup; symmetry; apply sort_perm.
Qed.

(** ** The child map *)

Lemma find_In (ch : ascii) (c : TrieNode) (m : list (ascii * TrieNode)) :
  find ch m = Some c -> In (ch, c) m.
Proof.
  induction m as [|[k c0] m IH]; simpl; [discriminate|].
  destruct (Ascii.eqb_spec k ch) as [->|_].
  - intros [= ->]; now left.
  - intros H; right; auto.
Qed.

Lemma find_None (ch : ascii) (m : list (ascii * TrieNode)) :
  find ch m = None <-> ~ In ch (map fst m).
Proof.
  induction m as [|[k c0] m IH]; simpl; [tauto|].
  destruct (Ascii.eqb_spec k ch) as [->|N].
  - split; [discriminate | intros H; exfalso; apply H; now left].
  - rewrite IH; tauto.
Qed.

Lemma In_find (ch : ascii) (c : TrieNode) (m : list (ascii * TrieNode)) :
  NoDup (map fst m) -> In (ch, c) m -> find ch m = Some c.
Proof.
  induction m as [|[k c0] m IH]; simpl; [tauto|].
  intros D [E|I].
  - injection E as -> ->; now rewrite Ascii.eqb_refl.
  - inversion D as [|? ? N D']; subst.
    destruct (Ascii.eqb_spec k ch) as [->|_]; [|auto].
    exfalso; apply N; change ch with (fst (ch, c)); now apply in_map.
Qed.

Lemma find_set_child_same (ch : ascii) (c : TrieNode) m :
  find ch (set_child ch c m) = Some c.
Proof.
  induction m as [|[k c0] m IH]; simpl.
  - now rewrite Ascii.eqb_refl.
  - destruct (Ascii.eqb k ch) eqn:E; simpl; now rewrite E.
Qed.

Lemma find_set_child_other (k ch : ascii) (c : TrieNode) m :
  k <> ch -> find k (set_child ch c m) = find k m.
Proof.
  intros N; induction m as [|[k0 c0] m IH]; simpl.
  - destruct (Ascii.eqb_spec ch k); [congruence|reflexivity].
  - destruct (Ascii.eqb_spec k0 ch) as [->|_]; simpl.
    + destruct (Ascii.eqb_spec ch k); [congruence|reflexivity].
    + now rewrite IH.
Qed.

Lemma set_child_twice (ch : ascii) (c c0 : TrieNode) m :
  set_child ch c (set_child ch c0 m) = set_child ch c m.
Proof.
  induction m as [|[k c1] m IH]; simpl.
  - now rewrite Ascii.eqb_refl.
  - destruct (Ascii.eqb k ch) eqn:E; simpl; rewrite E; [reflexivity|].
    now rewrite IH.
Qed.

(** The keys after [children[ch]] was set: the old ones, and [ch] at the
    end when it is new. *)
Lemma set_child_keys (ch : ascii) (c : TrieNode) m :
  map fst (set_child ch c m) =
  match find ch m with
  | Some _ => map fst m
  | None => map fst m ++ [ch]
  end.
Proof.
  induction m as [|[k c0] m IH]; simpl; [reflexivity|].
  destruct (Ascii.eqb k ch) eqn:E; simpl; [reflexivity|].
  rewrite IH; now destruct (find ch m).
Qed.

(** The nodes after [children[ch]] was set: the new node, and the old ones
    but the one it replaces. *)
Lemma set_child_In (ch : ascii) (c : TrieNode) m (kc : ascii * TrieNode) :
  In kc (set_child ch c m) -> kc = (ch, c) \/ In kc m.
Proof.
  induction m as [|[k c0] m IH]; simpl.
  - intros [<-|[]]; now left.
  - destruct (Ascii.eqb_spec k ch) as [->|_]; simpl.
    + intros [<-|I]; auto.
    + intros [<-|I]; auto. destruct (IH I); auto.
Qed.

Lemma set_child_sum (f : TrieNode -> nat) (ch : ascii) (c : TrieNode) m :
  list_sum (map (fun kc : ascii * TrieNode => let (_, c) := kc in f c)
              (set_child ch c m))
  + match find ch m with Some c0 => f c0 | None => 0 end
  = list_sum (map (fun kc : ascii * TrieNode => let (_, c) := kc in f c) m)
    + f c.
Proof.
  induction m as [|[k c0] m IH]; simpl; [lia|].
  destruct (Ascii.eqb k ch); simpl; lia.
Qed.

(** ** Well-formed trees *)

Lemma well_formed_node (e : bool) (cs : list (ascii * TrieNode)) :
  well_formed (mkNode e cs) <->
  NoDup (map fst cs) /\ Forall (fun k => isalpha k = true) (map fst cs) /\
  Forall (fun kc => well_formed (snd kc)) cs.
Proof.
  simpl.
  assert (E : forall l : list (ascii * TrieNode),
    (fix each (cs : list (ascii * TrieNode)) : Prop :=
       match cs with
       | [] => True
       | (_, c) :: cs' => well_formed c /\ each cs'
       end) l <-> Forall (fun kc => well_formed (snd kc)) l).
  { induction l as [|[k c] l IH]; [split; auto|].
    rewrite Forall_cons_iff, IH; reflexivity. }
  rewrite E; reflexivity.
Qed.

Lemma well_formed_newNode : well_formed newNode.
Proof. apply well_formed_node; repeat constructor. Qed.

Lemma well_formed_find (n c : TrieNode) (ch : ascii) :
  well_formed n -> find ch (children n) = Some c ->
  well_formed c /\ isalpha ch = true.
Proof.
  destruct n as [e cs]; rewrite well_formed_node; simpl.
  intros (_ & A & W) F; apply find_In in F.
  rewrite Forall_forall in A, W; split.
  - apply (W _ F).
  - apply A; change ch with (fst (ch, c)); now apply in_map.
Qed.

Lemma well_formed_set_child (e : bool) cs (ch : ascii) (c : TrieNode) :
  well_formed (mkNode e cs) -> isalpha ch = true -> well_formed c ->
  well_formed (mkNode e (set_child ch c cs)).
Proof.
  rewrite !well_formed_node; intros (D & A & W) L Wc.
  rewrite set_child_keys.
  assert (Wn : Forall (fun kc => well_formed (snd kc)) (set_child ch c cs)).
  { rewrite Forall_forall in *; intros kc I.
    destruct (set_child_In _ _ _ _ I) as [->|I']; auto. }
  destruct (find ch cs) eqn:F; repeat split; auto.
  - apply find_None in F.
    apply NoDup_rev in D; rewrite <- (rev_involutive (_ ++ _)).
    apply NoDup_rev; rewrite rev_app_distr; simpl.
    constructor; [now rewrite <- in_rev | assumption].
  - apply Forall_app; split; [assumption | now constructor].
Qed.

(** ** The words of a tree *)

Lemma words_node (e : bool) (cs : list (ascii * TrieNode)) :
  words (mkNode e cs) =
  (if e then [[]] else []) ++
  flat_map (fun kc => map (cons (fst kc)) (words (snd kc))) cs.
Proof.
  simpl; f_equal.
  induction cs as [|[k c] cs IH]; simpl; [reflexivity|now rewrite IH].
Qed.

Lemma words_nil (n : TrieNode) : In [] (words n) <-> isEndOfWord n = true.
Proof.
  destruct n as [e cs]; rewrite words_node, in_app_iff, in_flat_map; simpl.
  split.
  - intros [H|(kc & _ & H)].
    + destruct e; [reflexivity|destruct H].
    + apply in_map_iff in H; destruct H as (? & ? & _); discriminate.
  - intros ->; left; now left.
Qed.

Lemma words_cons (n : TrieNode) (k : ascii) (x : cstring) :
  In (k :: x) (words n) <->
  exists c, In (k, c) (children n) /\ In x (words c).
Proof.
  destruct n as [e cs]; rewrite words_node, in_app_iff, in_flat_map; simpl.
  split.
  - intros [H|([k' c] & I & H)].
    + destruct e; [destruct H as [?|[]]; discriminate | destruct H].
    + apply in_map_iff in H; simpl in H; destruct H as (y & [= -> ->] & Hy).
      eauto.
  - intros (c & I & H); right; exists (k, c); split; [assumption|].
    simpl; now apply in_map.
Qed.

(** [collectSuggestions] appends the words below [node], each after
    [currentPrefix]. *)
Lemma collect_words (node : TrieNode) :
  forall currentPrefix results,
    collectSuggestions node currentPrefix results =
    results ++ map (app currentPrefix) (words node).
Proof.
  induction node as [e cs IH] using TrieNode_nested_ind.
  intros pre res; rewrite words_node, map_app; simpl.
  assert (E : forall res0,
    (fix each (cs : list (ascii * TrieNode)) (results : list cstring) :=
       match cs with
       | [] => results
       | (key, child) :: cs' =>
           each cs' (collectSuggestions child (pre ++ [key]) results)
       end) cs res0 =
    res0 ++ map (app pre)
              (flat_map (fun kc => map (cons (fst kc)) (words (snd kc))) cs)).
  { induction IH as [|[k c] cs Hc _ IHcs]; intros res0; simpl.
    - now rewrite app_nil_r.
    - rewrite IHcs, Hc, map_app, map_map, <- !app_assoc; simpl.
      do 2 f_equal; apply map_ext; intros x.
      now rewrite <- app_assoc. }
  rewrite E; destruct e; simpl; rewrite <- ?app_assoc, ?app_nil_r; reflexivity.
Qed.

(** In a well-formed tree the words are the paths to terminal nodes. *)
Lemma terminal_at_words (x : cstring) :
  forall n, terminal_at n x = true -> In x (words n).
Proof.
  unfold terminal_at; induction x as [|k x IH]; intros n; simpl.
  - apply words_nil.
  - destruct (find k (children n)) as [c|] eqn:F; [|discriminate].
    intros H; apply words_cons; exists c; split; [now apply find_In | auto].
Qed.

Lemma words_terminal_at (x : cstring) :
  forall n, well_formed n -> In x (words n) -> terminal_at n x = true.
Proof.
  unfold terminal_at; induction x as [|k x IH]; intros n W; simpl.
  - apply words_nil.
  - rewrite words_cons; intros (c & I & H).
    destruct n as [e cs]; simpl in *.
    pose proof (proj1 (well_formed_node e cs) W) as (D & _ & Wc).
    rewrite (In_find _ _ _ D I).
    apply IH; [|assumption].
    rewrite Forall_forall in Wc; apply (Wc _ I).
Qed.

Lemma words_NoDup (n : TrieNode) : well_formed n -> NoDup (words n).
Proof.
  induction n as [e cs IH] using TrieNode_nested_ind.
  rewrite well_formed_node, words_node; intros (D & _ & W).
  apply NoDup_app.
  - destruct e; repeat constructor; auto.
  - clear e; induction cs as [|[k c] cs IHcs]; simpl in *; [constructor|].
    inversion D as [|? ? Nk D']; inversion IH as [|? ? Hc IH'];
      inversion W as [|? ? Wc W']; subst; simpl in *.
    apply NoDup_app.
    + apply Injective_map_NoDup; [intros a b; congruence | auto].
    + auto.
    + intros x I J; apply in_map_iff in I; destruct I as (y & <- & _).
      apply in_flat_map in J; destruct J as ([k' c'] & I' & J).
      apply in_map_iff in J; simpl in J; destruct J as (? & [= -> _] & _).
      apply Nk; change k with (fst (k, c')); now apply in_map.
  - intros x I J; apply in_flat_map in J; destruct J as (kc & _ & J).
    apply in_map_iff in J; destruct J as (y & <- & _).
    destruct e; [destruct I as [?|[]]; discriminate | destruct I].
Qed.

(** A path with a character that is not alphabetic leaves a well-formed
    tree: no edge is keyed by that character. *)
Lemma searchPrefix_not_alpha (prefix : cstring) (ch : ascii) :
  In ch prefix -> isalpha ch = false ->
  forall n, well_formed n -> searchPrefix n prefix = None.
Proof.
  intros I A; induction prefix as [|k p IH]; intros n W; simpl; [destruct I|].
  destruct (find k (children n)) as [c|] eqn:F; [|reflexivity].
  destruct (well_formed_find _ _ _ W F) as (Wc & Ak).
  destruct I as [->|I]; [congruence|auto].
Qed.

(** ** What [insert] does to the tree *)

Lemma terminal_at_nil (n : TrieNode) : terminal_at n [] = isEndOfWord n.
Proof. reflexivity. Qed.

Lemma terminal_at_cons (n : TrieNode) (k : ascii) (x : cstring) :
  terminal_at n (k :: x) =
  match find k (children n) with
  | Some c => terminal_at c x
  | None => false
  end.
Proof. unfold terminal_at; simpl; now destruct (find k (children n)). Qed.

Lemma terminal_at_newNode (x : cstring) : terminal_at newNode x = false.
Proof. now destruct x. Qed.

Lemma count_terminal_node (n : TrieNode) :
  count_terminal n =
  (if isEndOfWord n then 1 else 0) +
  list_sum (map (fun kc : ascii * TrieNode =>
                   let (_, c) := kc in count_terminal c) (children n)).
Proof. now destruct n. Qed.

(** [insert] skips what is not alphabetic: it walks the letters only. *)
Lemma insert_from_letters (cleanWord : cstring) :
  forall n, insert_from cleanWord n = insert_from (letters cleanWord) n.
Proof.
  induction cleanWord as [|ch w IH]; intros n; simpl; [reflexivity|].
  destruct (isalpha ch) eqn:A; simpl; [|apply IH].
  now rewrite A, IH.
Qed.

(** After the walk, the terminal paths are the old ones and the letters
    of the word. *)
Lemma terminal_at_insert_from (cleanWord : cstring) :
  forall n x,
    terminal_at (fst (insert_from cleanWord n)) x = true <->
    x = letters cleanWord \/ terminal_at n x = true.
Proof.
  induction cleanWord as [|ch w IH]; intros n x; simpl.
  - destruct n as [e cs]; simpl.
    destruct x as [|k x]; destruct e; simpl;
      rewrite ?terminal_at_nil, ?terminal_at_cons; simpl;
      intuition (try discriminate; auto).
  - destruct (isalpha ch) eqn:A; simpl; [|apply IH].
    destruct (insert_from w _) as [c' inc] eqn:E; simpl.
    destruct x as [|k x].
    + rewrite !terminal_at_nil; simpl; intuition discriminate.
    + rewrite !terminal_at_cons; simpl.
      destruct (Ascii.eqb_spec k ch) as [->|N].
      * rewrite find_set_child_same.
        replace c' with (fst (insert_from w
          match find ch (children n) with Some c => c | None => newNode end))
          by now rewrite E.
        rewrite IH.
        destruct (find ch (children n)); rewrite ?terminal_at_newNode;
          intuition (try discriminate; try congruence).
      * rewrite find_set_child_other by assumption.
        intuition congruence.
Qed.

(** The walk adds one terminal node exactly when it reports an increment. *)
Lemma count_terminal_insert_from (cleanWord : cstring) :
  forall n,
    count_terminal (fst (insert_from cleanWord n)) =
    count_terminal n + (if snd (insert_from cleanWord n) then 1 else 0).
Proof.
  induction cleanWord as [|ch w IH]; intros n; simpl.
  - destruct n as [[] cs]; simpl; lia.
  - destruct (isalpha ch) eqn:A; simpl; [|apply IH].
    pose proof (IH match find ch (children n) with
                   | Some c => c | None => newNode end) as H.
    destruct (insert_from w _) as [c' inc]; simpl in *.
    pose proof (set_child_sum count_terminal ch c' (children n)) as S.
    rewrite (count_terminal_node n).
    destruct (find ch (children n)); simpl in *; lia.
Qed.

Lemma well_formed_insert_from (cleanWord : cstring) :
  forall n, well_formed n -> well_formed (fst (insert_from cleanWord n)).
Proof.
  induction cleanWord as [|ch w IH]; intros n W; simpl.
  - destruct n as [[] cs]; simpl; [assumption|].
    exact W.
  - destruct (isalpha ch) eqn:A; simpl; [|now apply IH].
    assert (Wc : well_formed match find ch (children n) with
                             | Some c => c | None => newNode end).
    { destruct (find ch (children n)) eqn:F.
      - now destruct (well_formed_find _ _ _ W F).
      - apply well_formed_newNode. }
    apply IH in Wc.
    destruct (insert_from w _) as [c' inc]; destruct n as [e cs].
    exact (well_formed_set_child e cs ch c' W A Wc).
Qed.

(** A second walk of the same word changes nothing. *)
Lemma insert_from_twice (cleanWord : cstring) :
  forall n,
    insert_from cleanWord (fst (insert_from cleanWord n)) =
    (fst (insert_from cleanWord n), false).
Proof.
  induction cleanWord as [|ch w IH]; intros n; simpl.
  - now destruct n as [[] cs].
  - destruct (isalpha ch) eqn:A; simpl; [|apply IH].
    set (child := match find ch (children n) with
                  | Some c => c | None => newNode end).
    pose proof (IH child) as H.
    destruct (insert_from w child) as [c' inc]; simpl in *.
    now rewrite find_set_child_same, H, set_child_twice.
Qed.

(** ** The index *)

Lemma build_snoc (ws : list cstring) (w : cstring) :
  build (ws ++ [w]) = insert w (build ws).
Proof. unfold build, insert_all; now rewrite fold_left_app. Qed.

Lemma run_snoc (ops : list Op) (op : Op) (t : Trie) :
  run (ops ++ [op]) t = fst (step op (run ops t)).
Proof. unfold run; now rewrite fold_left_app. Qed.

(** Only the calls of [insert] change the index. *)
Lemma run_build (ops : list Op) : run ops emptyTrie = build (inserted ops).
Proof.
  unfold run, build, insert_all; generalize emptyTrie.
  induction ops as [|[w|p|] ops IH]; intros t; simpl; auto.
Qed.

Lemma insert_root (w : cstring) (t : Trie) :
  root (insert w t) =
  match normalize w with
  | [] => root t
  | _ :: _ => fst (insert_from (normalize w) (root t))
  end.
Proof.
  unfold insert; destruct (normalize w) as [|c cw]; [reflexivity|].
  now destruct (insert_from (c :: cw) (root t)).
Qed.

Lemma insert_wordCount (w : cstring) (t : Trie) :
  wordCount (insert w t) =
  match normalize w with
  | [] => wordCount t
  | _ :: _ =>
      if snd (insert_from (normalize w) (root t))
      then int_wrap (wordCount t + 1)
      else wordCount t
  end.
Proof.
  unfold insert; destruct (normalize w) as [|c cw]; [reflexivity|].
  now destruct (insert_from (c :: cw) (root t)).
Qed.

Lemma well_formed_insert (w : cstring) (t : Trie) :
  well_formed (root t) -> well_formed (root (insert w t)).
Proof.
  intros W; rewrite insert_root; destruct (normalize w); [assumption|].
  now apply well_formed_insert_from.
Qed.

Lemma well_formed_build (ws : list cstring) : well_formed (root (build ws)).
Proof.
  induction ws as [|w ws IH] using rev_ind.
  - apply well_formed_newNode.
  - rewrite build_snoc; now apply well_formed_insert.
Qed.

Lemma int_wrap_small (z : Z) :
  (INT_MIN <= z <= INT_MAX)%Z -> int_wrap z = z.
Proof.
  unfold INT_MIN, INT_MAX, int_wrap; intros H.
  rewrite Z.mod_small; lia.
Qed.

Lemma int_wrap_range (z : Z) : (INT_MIN <= int_wrap z <= INT_MAX)%Z.
Proof.
  unfold INT_MIN, INT_MAX, int_wrap.
  pose proof (Z.mod_pos_bound (z + 2147483648) 4294967296 eq_refl); lia.
Qed.

(** Incrementing a wrapped value is wrapping the incremented one. *)
Lemma int_wrap_succ (z : Z) : int_wrap (int_wrap z + 1) = int_wrap (z + 1).
Proof.
  unfold int_wrap; f_equal.
  replace ((z + 2147483648) mod 4294967296 - 2147483648 + 1 + 2147483648)%Z
    with ((z + 2147483648) mod 4294967296 + 1)%Z by lia.
  replace (z + 1 + 2147483648)%Z with (z + 2147483648 + 1)%Z by lia.
  apply Zplus_mod_idemp_l.
Qed.

Lemma wraps_terminals_insert (w : cstring) (t : Trie) :
  wraps_terminals t -> wraps_terminals (insert w t).
Proof.
  unfold wraps_terminals; intros C.
  rewrite insert_root, insert_wordCount.
  destruct (normalize w) as [|c cw]; [assumption|].
  rewrite count_terminal_insert_from.
  destruct (snd (insert_from (c :: cw) (root t))).
  - rewrite C, int_wrap_succ; f_equal; lia.
  - rewrite C; f_equal; lia.
Qed.

(** As long as the terminal nodes can be counted in an [int], [insert]
    keeps [wordCount] equal to their number. *)
Lemma counts_terminals_insert (w : cstring) (t : Trie) :
  counts_terminals t ->
  (Z.of_nat (count_terminal (root (insert w t))) <= INT_MAX)%Z ->
  counts_terminals (insert w t).
Proof.
  unfold counts_terminals; intros C; rewrite insert_root, insert_wordCount.
  destruct (normalize w) as [|c cw]; [intros _; assumption|].
  rewrite count_terminal_insert_from.
  destruct (snd (insert_from (c :: cw) (root t))); intros B.
  - rewrite C, int_wrap_small; unfold INT_MIN, INT_MAX in *; lia.
  - rewrite C; f_equal; lia.
Qed.

Lemma terminal_at_insert (w : cstring) (t : Trie) (x : cstring) :
  terminal_at (root (insert w t)) x = true <->
  (normalize w <> [] /\ x = stored_form w) \/ terminal_at (root t) x = true.
Proof.
  rewrite insert_root; unfold stored_form.
  destruct (normalize w) as [|c cw] eqn:E.
  - intuition congruence.
  - rewrite terminal_at_insert_from; intuition congruence.
Qed.

(** The terminal paths of the index are the stored forms of the words
    that were inserted and not dropped as empty. *)
Lemma terminal_at_build (ws : list cstring) (x : cstring) :
  terminal_at (root (build ws)) x = true <->
  exists w, In w ws /\ normalize w <> [] /\ x = stored_form w.
Proof.
  induction ws as [|w ws IH] using rev_ind.
  - rewrite terminal_at_newNode; split; [discriminate|].
    intros (w & [] & _).
  - rewrite build_snoc, terminal_at_insert, IH; split.
    + intros [(N & ->)|(w' & I & H)].
      * exists w; rewrite in_app_iff; simpl; auto.
      * exists w'; rewrite in_app_iff; auto.
    + intros (w' & I & N & ->); apply in_app_iff in I.
      destruct I as [I|[->|[]]]; [right; eauto | left; auto].
Qed.

Lemma well_formed_searchPrefix (prefix : cstring) :
  forall n m, well_formed n -> searchPrefix n prefix = Some m -> well_formed m.
Proof.
  induction prefix as [|k p IH]; intros n m W; simpl.
  - now intros [= <-].
  - destruct (find k (children n)) as [c|] eqn:F; [|discriminate].
    apply IH; now destruct (well_formed_find _ _ _ W F).
Qed.

(** [getSuggestions] in terms of the words below the node of the prefix. *)
Lemma getSuggestions_words (prefix : cstring) (t : Trie) :
  getSuggestions prefix t =
  match searchPrefix (root t) (normalize prefix) with
  | Some node => sort (map (app (normalize prefix)) (words node))
  | None => []
  end.
Proof.
  unfold getSuggestions.
  destruct (normalize prefix) as [|c p]; cbv zeta.
  - now rewrite collect_words.
  - destruct (searchPrefix (root t) (c :: p));
      [now rewrite collect_words | reflexivity].
Qed.

Lemma getSuggestions_all (t : Trie) :
  getSuggestions [] t = sort (words (root t)).
Proof.
  rewrite getSuggestions_words; simpl; f_equal.
  rewrite <- (map_id (words (root t))) at 2; now apply map_ext.
Qed.

Lemma getSuggestions_sorted (prefix : cstring) (t : Trie) :
  Sorted string_le (getSuggestions prefix t).
Proof.
  rewrite getSuggestions_words; destruct (searchPrefix _ _);
    [apply sort_sorted | constructor].
Qed.

Lemma getSuggestions_NoDup (prefix : cstring) (t : Trie) :
  well_formed (root t) -> NoDup (getSuggestions prefix t).
Proof.
  intros W; rewrite getSuggestions_words.
  destruct (searchPrefix _ _) as [m|] eqn:E; [|constructor].
  apply sort_NoDup, Injective_map_NoDup.
  - intros a b; apply app_inv_head.
  - eapply words_NoDup, well_formed_searchPrefix; eassumption.
Qed.

Lemma terminal_at_app (p s : cstring) :
  forall n,
    terminal_at n (p ++ s) =
    match searchPrefix n p with
    | Some m => terminal_at m s
    | None => false
    end.
Proof.
  induction p as [|k p IH]; intros n; simpl; [reflexivity|].
  rewrite terminal_at_cons.
  destruct (find k (children n)); [apply IH | reflexivity].
Qed.

(** The suggestions for a prefix are the terminal paths that extend it. *)
Lemma In_getSuggestions (prefix : cstring) (t : Trie) (y : cstring) :
  well_formed (root t) ->
  In y (getSuggestions prefix t) <->
  exists s, y = normalize prefix ++ s /\
            terminal_at (root t) (normalize prefix ++ s) = true.
Proof.
  intros W; rewrite getSuggestions_words.
  destruct (searchPrefix (root t) (normalize prefix)) as [m|] eqn:E.
  - pose proof (well_formed_searchPrefix _ _ _ W E) as Wm.
    rewrite sort_In, in_map_iff; split.
    + intros (s & <- & I); exists s; split; [reflexivity|].
      rewrite terminal_at_app, E; now apply words_terminal_at.
    + intros (s & -> & T); exists s; split; [reflexivity|].
      rewrite terminal_at_app, E in T; now apply terminal_at_words.
  - split; [intros []|].
    intros (s & _ & T); rewrite terminal_at_app, E in T; discriminate.
Qed.

(** Two well-formed indexes with the same terminal paths give the same
    suggestions: the sort of distinct strings forgets the order in which
    they were collected. *)
Lemma getSuggestions_by_terminals (prefix : cstring) (t1 t2 : Trie) :
  well_formed (root t1) -> well_formed (root t2) ->
  (forall x, terminal_at (root t1) x = terminal_at (root t2) x) ->
  getSuggestions prefix t1 = getSuggestions prefix t2.
Proof.
  intros W1 W2 T; apply sorted_perm_unique; try apply getSuggestions_sorted.
  apply NoDup_Permutation; try now apply getSuggestions_NoDup.
  intros y; rewrite !In_getSuggestions by assumption.
  split; intros (s & -> & H); exists s; split; congruence.
Qed.

(** The walk reports an increment exactly when the letters of the word
    were not a terminal path yet. *)
Lemma insert_from_snd (cleanWord : cstring) :
  forall n,
    snd (insert_from cleanWord n) = negb (terminal_at n (letters cleanWord)).
Proof.
  induction cleanWord as [|ch w IH]; intros n; simpl.
  - rewrite terminal_at_nil; now destruct (isEndOfWord n).
  - destruct (isalpha ch) eqn:A; simpl; [|apply IH].
    rewrite terminal_at_cons.
    set (child := match find ch (children n) with
                  | Some c => c | None => newNode end).
    pose proof (IH child) as H.
    destruct (insert_from w child) as [c' inc]; simpl in *.
    subst child; destruct (find ch (children n)); [assumption|].
    now rewrite terminal_at_newNode in H.
Qed.

(** ** Trees that differ in iteration order only *)

Lemma node_equiv_node e1 cs1 e2 cs2 :
  node_equiv (mkNode e1 cs1) (mkNode e2 cs2) <->
  e1 = e2 /\ exists cs', Permutation cs2 cs' /\ Forall2 same_binding cs1 cs'.
Proof.
  simpl.
  assert (E : forall l1 l2 : list (ascii * TrieNode),
    (fix each (l1 l2 : list (ascii * TrieNode)) : Prop :=
       match l1, l2 with
       | [], [] => True
       | (k1, c1) :: r1, (k2, c2) :: r2 =>
           k1 = k2 /\ node_equiv c1 c2 /\ each r1 r2
       | _, _ => False
       end) l1 l2 <-> Forall2 same_binding l1 l2).
  { induction l1 as [|[k1 c1] l1 IH]; intros [|[k2 c2] l2].
    - split; auto.
    - split; [intros [] | intros H; inversion H].
    - split; [intros [] | intros H; inversion H].
    - rewrite IH; split.
      + intros (? & ? & ?); constructor; [split|]; assumption.
      + intros H; inversion H as [|? ? ? ? [? ?] ?]; subst; auto. }
  split; intros (? & cs' & ? & H); (split; [assumption|]);
    exists cs'; (split; [assumption|]); now apply E.
Qed.

Lemma node_equiv_refl (n : TrieNode) : node_equiv n n.
Proof.
  induction n as [e cs IH] using TrieNode_nested_ind.
  apply node_equiv_node; split; [reflexivity|].
  exists cs; split; [reflexivity|].
  induction IH; constructor; [split|]; auto.
Qed.

Lemma trie_equiv_refl (t : Trie) : trie_equiv t t.
Proof. split; [apply node_equiv_refl | reflexivity]. Qed.

Lemma same_binding_keys (l1 l2 : list (ascii * TrieNode)) :
  Forall2 same_binding l1 l2 -> map fst l1 = map fst l2.
Proof. induction 1 as [|a b l1 l2 [E _] _ IH]; simpl; congruence. Qed.

Lemma find_perm (k : ascii) (l l' : list (ascii * TrieNode)) :
  NoDup (map fst l) -> Permutation l l' -> find k l = find k l'.
Proof.
  intros D P.
  assert (D' : NoDup (map fst l'))
    by (eapply Permutation_NoDup; [apply Permutation_map; exact P | exact D]).
  destruct (find k l) as [c|] eqn:F; symmetry.
  - apply In_find; [assumption|].
    eapply Permutation_in; [exact P | now apply find_In].
  - apply find_None; apply find_None in F; intros I; apply F.
    eapply Permutation_in; [symmetry; apply Permutation_map; exact P | exact I].
Qed.

Lemma find_same_binding (k : ascii) (l1 l2 : list (ascii * TrieNode)) :
  Forall2 same_binding l1 l2 ->
  match find k l1, find k l2 with
  | Some c1, Some c2 => node_equiv c1 c2
  | None, None => True
  | _, _ => False
  end.
Proof.
  induction 1 as [|[k1 c1] [k2 c2] l1 l2 [E N] _ IH]; simpl in *; [exact I|].
  subst k2; now destruct (Ascii.eqb k1 k).
Qed.

Lemma well_formed_equiv (n1 : TrieNode) :
  forall n2, node_equiv n1 n2 -> well_formed n1 -> well_formed n2.
Proof.
  induction n1 as [e1 cs1 IH] using TrieNode_nested_ind.
  intros [e2 cs2]; rewrite node_equiv_node, !well_formed_node.
  intros (_ & cs' & P & F) (D & A & W).
  assert (W' : Forall (fun kc => well_formed (snd kc)) cs').
  { clear P D A; induction F as [|a b l1 l2 [_ N] _ IHF]; [constructor|].
    inversion IH; inversion W; subst; constructor; auto. }
  rewrite (same_binding_keys _ _ F) in D, A.
  repeat split.
  - eapply Permutation_NoDup; [symmetry; apply Permutation_map; exact P|exact D].
  - eapply Permutation_Forall; [symmetry; apply Permutation_map; exact P|exact A].
  - eapply Permutation_Forall; [symmetry; exact P | exact W'].
Qed.

Lemma terminal_at_equiv (x : cstring) :
  forall n1 n2, node_equiv n1 n2 -> well_formed n2 ->
    terminal_at n1 x = terminal_at n2 x.
Proof.
  induction x as [|k x IH]; intros [e1 cs1] [e2 cs2] N W.
  - rewrite !terminal_at_nil; simpl; now apply node_equiv_node in N.
  - rewrite !terminal_at_cons; simpl.
    pose proof (proj1 (node_equiv_node _ _ _ _) N) as (_ & cs' & P & F).
    pose proof (proj1 (well_formed_node _ _) W) as (D & _ & _).
    pose proof (find_same_binding k _ _ F) as R.
    rewrite <- (find_perm k _ _ D P) in R.
    destruct (find k cs1) as [c1|], (find k cs2) as [c2|] eqn:F2;
      try contradiction; [|reflexivity].
    apply IH; [assumption|].
    now destruct (well_formed_find (mkNode e2 cs2) c2 k W F2).
Qed.

Lemma insert_all_snoc (ws : list cstring) (w : cstring) (t : Trie) :
  insert_all (ws ++ [w]) t = insert w (insert_all ws t).
Proof. unfold insert_all; now rewrite fold_left_app. Qed.

Lemma well_formed_run (ops : list Op) : well_formed (root (run ops emptyTrie)).
Proof. rewrite run_build; apply well_formed_build. Qed.

Lemma insert_twice (w : cstring) (t : Trie) :
  insert w (insert w t) = insert w t.
Proof.
  unfold insert; destruct (normalize w) as [|c cw]; [reflexivity|].
  pose proof (insert_from_twice (c :: cw) (root t)) as H.
  destruct (insert_from (c :: cw) (root t)) as [r inc]; simpl in *.
  now rewrite H.
Qed.

Lemma insert_normalize (w w' : cstring) (t : Trie) :
  normalize w' = normalize w -> insert w' t = insert w t.
Proof. unfold insert; now intros ->. Qed.

(** Terminal paths are never lost. *)
Lemma terminal_at_insert_all (ws : list cstring) (t : Trie) (x : cstring) :
  terminal_at (root t) x = true ->
  terminal_at (root (insert_all ws t)) x = true.
Proof.
  intros T; induction ws as [|w ws IH] using rev_ind; [assumption|].
  rewrite insert_all_snoc; apply terminal_at_insert; now right.
Qed.

(** Inserting a word whose stored form is a terminal path already leaves
    the index as it is. *)
Lemma insert_stored (w : cstring) (t : Trie) :
  terminal_at (root t) (stored_form w) = true ->
  wordCount (insert w t) = wordCount t.
Proof.
  intros T; rewrite insert_wordCount.
  destruct (normalize w) as [|c cw] eqn:E; [reflexivity|].
  rewrite insert_from_snd; unfold stored_form in T; rewrite E in T.
  now rewrite T.
Qed.

Lemma letters_all_alpha (w : cstring) :
  forallb isalpha w = true -> letters w = w.
Proof.
  induction w as [|c w IH]; simpl; [reflexivity|].
  intros H; apply andb_true_iff in H; destruct H as [-> H].
  now rewrite IH.
Qed.

Lemma letters_nil_iff (w : cstring) :
  letters w = [] <-> existsb isalpha w = false.
Proof.
  induction w as [|c w IH]; simpl; [tauto|].
  destruct (isalpha c); simpl; [split; discriminate | exact IH].
Qed.

Lemma terminal_at_insert_eq (w : cstring) (t1 t2 : Trie) :
  (forall x, terminal_at (root t1) x = terminal_at (root t2) x) ->
  forall x,
    terminal_at (root (insert w t1)) x = terminal_at (root (insert w t2)) x.
Proof.
  intros H x; apply eq_iff_eq_true.
  rewrite !terminal_at_insert, H; reflexivity.
Qed.

(** Whatever the iteration orders were, the index has the terminal paths
    and the count of the reference run. *)
Lemma reaches_sound (ops : list Op) (t : Trie) :
  reaches ops t ->
  well_formed (root t) /\
  (forall x, terminal_at (root t) x = terminal_at (root (run ops emptyTrie)) x)
  /\ wordCount t = wordCount (run ops emptyTrie).
Proof.
  induction 1 as [|ops op t t' R (W & T & C) (N & Cn)].
  - repeat split; apply well_formed_newNode.
  - rewrite run_snoc.
    assert (Ws : well_formed (root (fst (step op t))))
      by (destruct op; simpl; auto using well_formed_insert).
    pose proof (well_formed_equiv _ _ N Ws) as W'.
    split; [assumption|]; split.
    + intros x; rewrite <- (terminal_at_equiv x _ _ N W').
      destruct op; simpl; auto using terminal_at_insert_eq.
    + rewrite <- Cn; destruct op as [w| |]; simpl; auto.
      rewrite !insert_wordCount, !insert_from_snd, T, C; reflexivity.
Qed.

(** ** [trim] and the empty word *)

Lemma find_first_None (str : cstring) :
  find_first_not_of str = None <-> forallb is_space str = true.
Proof.
  induction str as [|c str IH]; simpl; [tauto|].
  destruct (is_space c); simpl; [|split; discriminate].
  rewrite <- IH; destruct (find_first_not_of str); simpl;
    split; congruence.
Qed.

Lemma find_last_lt (str : cstring) (last : nat) :
  find_last_not_of str = Some last -> last < List.length str.
Proof.
  revert last; induction str as [|c str IH]; simpl; [discriminate|].
  intros last; destruct (find_last_not_of str) as [i|].
  - intros [= <-]; specialize (IH i eq_refl); lia.
  - destruct (is_space c); [discriminate|intros [= <-]; lia].
Qed.

(** In [trim], [last] is found whenever [first] is, and not before it. *)
Lemma find_last_some (str : cstring) (first : nat) :
  find_first_not_of str = Some first ->
  exists last, find_last_not_of str = Some last /\ first <= last.
Proof.
  revert first; induction str as [|c str IH]; simpl; [discriminate|].
  intros first; destruct (is_space c) eqn:S.
  - destruct (find_first_not_of str) as [f|]; [|discriminate].
    intros [= <-]; destruct (IH f eq_refl) as (l & -> & L).
    exists (Datatypes.S l); split; [reflexivity|lia].
  - intros [= <-]; destruct (find_last_not_of str) as [i|].
    + exists (Datatypes.S i); split; [reflexivity|lia].
    + exists 0; split; [reflexivity|lia].
Qed.

Lemma trim_nil_iff (str : cstring) :
  trim str = [] <-> forallb is_space str = true.
Proof.
  rewrite <- find_first_None; unfold trim, substr.
  destruct (find_first_not_of str) as [first|] eqn:F; [|tauto].
  destruct (find_last_some _ _ F) as (last & L & Le); rewrite L.
  pose proof (find_last_lt _ _ L) as Lt.
  split; [|discriminate].
  intros E; apply (f_equal (@List.length ascii)) in E.
  rewrite length_firstn, length_skipn in E; simpl in E; lia.
Qed.

(** The words [insert] drops are the empty and the whitespace-only ones. *)
Lemma normalize_nil_iff (text : cstring) :
  normalize text = [] <-> forallb is_space text = true.
Proof.
  rewrite <- trim_nil_iff; unfold normalize, toLower.
  destruct (trim text); simpl; split; congruence.
Qed.

Lemma find_first_split (str : cstring) (first : nat) :
  find_first_not_of str = Some first ->
  exists lead c rest,
    str = lead ++ c :: rest /\ List.length lead = first /\
    forallb is_space lead = true /\ is_space c = false.
Proof.
  revert first; induction str as [|a str IH]; simpl; [discriminate|].
  intros first; destruct (is_space a) eqn:A.
  - destruct (find_first_not_of str) as [f|]; [|discriminate].
    intros [= <-]; destruct (IH f eq_refl) as (lead & c & rest & -> & L & S & C).
    exists (a :: lead), c, rest; simpl; rewrite A, S, L; auto.
  - intros [= <-]; exists [], a, str; auto.
Qed.

Lemma find_last_split (str : cstring) (last : nat) :
  find_last_not_of str = Some last ->
  exists init c trail,
    str = init ++ c :: trail /\ List.length init = last /\
    is_space c = false /\ forallb is_space trail = true.
Proof.
  revert last; induction str as [|a str IH]; simpl; [discriminate|].
  intros last; destruct (find_last_not_of str) as [i|] eqn:F.
  - intros [= <-]; destruct (IH i eq_refl) as (init & c & trail & -> & L & C & S).
    exists (a :: init), c, trail; simpl; rewrite L; auto.
  - destruct (is_space a) eqn:A; [discriminate|].
    intros [= <-]; exists [], a, str; repeat split; auto.
    clear IH; induction str as [|b str IH]; simpl in *; [reflexivity|].
    destruct (find_last_not_of str); [discriminate|].
    destruct (is_space b); [auto|discriminate].
Qed.

Lemma find_last_snoc (init : cstring) (c : ascii) :
  is_space c = false ->
  find_last_not_of (init ++ [c]) = Some (List.length init).
Proof.
  intros C; induction init as [|a init IH]; simpl; [now rewrite C|].
  now rewrite IH.
Qed.

(** The shape of a trimmed string that is not empty. *)
Lemma trim_shape (str : cstring) (first : nat) :
  find_first_not_of str = Some first ->
  exists init c trail,
    str = init ++ c :: trail /\ first <= List.length init /\
    trim str = skipn first init ++ [c] /\
    forallb is_space (firstn first init) = true /\
    is_space c = false /\ forallb is_space trail = true /\
    (forall a, hd_error (trim str) = Some a -> is_space a = false).
Proof.
  intros F; unfold trim, substr; rewrite F.
  destruct (find_last_some _ _ F) as (last & L & Le); rewrite L.
  destruct (find_first_split _ _ F) as (lead & a & rest & E1 & L1 & S1 & A).
  destruct (find_last_split _ _ L) as (init & c & trail & E2 & L2 & C & S2).
  exists init, c, trail; subst last.
  assert (Hl : lead = firstn first init).
  { apply (f_equal (firstn first)) in E2; rewrite E1 in E2.
    rewrite !firstn_app, L1 in E2.
    replace (first - first) with 0 in E2 by lia.
    replace (first - List.length init) with 0 in E2 by lia.
    simpl in E2; rewrite !app_nil_r in E2.
    rewrite <- E2; symmetry; apply firstn_all2; lia. }
  assert (T : firstn (List.length init - first + 1) (skipn first str)
              = skipn first init ++ [c]).
  { rewrite E2, skipn_app.
    replace (first - List.length init) with 0 by lia; simpl skipn.
    rewrite firstn_app, length_skipn.
    replace (List.length init - first + 1 - (List.length init - first))
      with 1 by lia.
    simpl; f_equal; apply firstn_all2; rewrite length_skipn; lia. }
  rewrite T; repeat split; auto; try congruence.
  intros b; rewrite <- T, E1, skipn_app, L1.
  replace (first - first) with 0 by lia.
  rewrite skipn_all2 by lia; simpl.
  replace (List.length init - first + 1) with (S (List.length init - first))
    by lia.
  simpl; congruence.
Qed.

(** A string that neither starts nor ends with whitespace is its own
    trimmed form. *)
Lemma trim_fixed (str : cstring) :
  (forall a, hd_error str = Some a -> is_space a = false) ->
  (forall a, hd_error (rev str) = Some a -> is_space a = false) ->
  trim str = str.
Proof.
  intros H T; destruct str as [|a str]; [reflexivity|].
  pose proof (H a eq_refl) as A.
  destruct (rev (a :: str)) as [|c r] eqn:R.
  { apply (f_equal (@List.length ascii)) in R; rewrite length_rev in R.
    discriminate. }
  pose proof (T c eq_refl) as C.
  assert (E : a :: str = rev r ++ [c])
    by (rewrite <- (rev_involutive (a :: str)), R; reflexivity).
  unfold trim, substr.
  replace (find_first_not_of (a :: str)) with (Some 0) by (simpl; now rewrite A).
  rewrite E, find_last_snoc by assumption.
  simpl skipn; apply firstn_all2; rewrite length_app; simpl; lia.
Qed.

(** ** The properties of the specification *)

(** The root is terminal exactly when a word was inserted that is not
    empty after trimming and has no letter. *)
Lemma root_terminal_build (ws : list cstring) :
  isEndOfWord (root (build ws)) = true <->
  exists w, In w ws /\ keeps_a_letter w = false.
Proof.
  rewrite <- terminal_at_nil, terminal_at_build; unfold keeps_a_letter.
  split; intros (w & I & H); exists w; (split; [assumption|]).
  - destruct H as (N & E); symmetry in E; apply letters_nil_iff in E.
    destruct (normalize w); [congruence|assumption].
  - destruct (normalize w) eqn:E; [discriminate|]; rewrite <- E in *.
    split; [congruence | symmetry; now apply letters_nil_iff].
Qed.

(** C1, a defect of the code. The specification wants the root never
    terminal, [insert] of a text without letters included. [insert]
    tests the cleaned word for emptiness before it skips what is not
    alphabetic: the word "123" is not empty, none of its characters makes
    an edge, and the final test marks the node the walk stopped at, the
    root, and increments [wordCount]. The empty string is then a
    suggestion. *)
Theorem C1_insert_digits_marks_root :
  normalize (lit "123") = lit "123" /\
  isEndOfWord (root emptyTrie) = false /\
  isEndOfWord (root (insert (lit "123") emptyTrie)) = true /\
  getWordCount emptyTrie = 0%Z /\
  getWordCount (insert (lit "123") emptyTrie) = 1%Z /\
  getSuggestions (lit "") (insert (lit "123") emptyTrie) = [[]].
Proof. vm_compute; repeat split. Qed.

(** C2 as stated fails: after [insert("a1")] the empty prefix suggests
    "a", not the normalised form "a1". *)
Lemma C2_counterexample :
  ~ (forall x,
       In x (getSuggestions (lit "") (build [lit "a1"])) <->
       exists w, In w [lit "a1"] /\ x = normalize w).
Proof.
  intros H.
  assert (I : In (lit "a1") (getSuggestions (lit "") (build [lit "a1"]))).
  { apply H; exists (lit "a1"); split; [now left | reflexivity]. }
  vm_compute in I; destruct I as [E|[]]; discriminate E.
Qed.

(** C2, amended. After any sequence of [insert]s in which every word is
    dropped as empty or has a letter, the empty prefix suggests exactly
    the stored forms (trimmed, lowercased, letters only) of the inserted
    words that were not empty after trimming, each once; the empty
    string is not one of them. *)
Theorem C2_suggest_all_exact (ws : list cstring) :
  forallb keeps_a_letter ws = true ->
  NoDup (getSuggestions (lit "") (build ws)) /\
  ~ In [] (getSuggestions (lit "") (build ws)) /\
  forall x,
    In x (getSuggestions (lit "") (build ws)) <->
    exists w, In w ws /\ normalize w <> [] /\ x = stored_form w.
Proof.
  intros K; pose proof (well_formed_build ws) as W.
  assert (E : forall x,
    In x (getSuggestions (lit "") (build ws)) <->
    terminal_at (root (build ws)) x = true).
  { intros x; change (lit "") with (@nil ascii).
    rewrite getSuggestions_all, sort_In; split.
    - now apply words_terminal_at.
    - apply terminal_at_words. }
  split; [now apply getSuggestions_NoDup|]; split.
  - rewrite E, terminal_at_nil, root_terminal_build.
    intros (w & I & F); rewrite forallb_forall in K.
    rewrite (K w I) in F; discriminate.
  - intros x; now rewrite E, terminal_at_build.
Qed.

Lemma C2_suggest_all_exact_witness :
  forallb keeps_a_letter [lit "  Apple "; lit "a1"; lit "   "] = true /\
  (NoDup (getSuggestions (lit "")
            (build [lit "  Apple "; lit "a1"; lit "   "])) /\
   ~ In [] (getSuggestions (lit "")
              (build [lit "  Apple "; lit "a1"; lit "   "])) /\
   forall x,
     In x (getSuggestions (lit "")
             (build [lit "  Apple "; lit "a1"; lit "   "])) <->
     exists w, In w [lit "  Apple "; lit "a1"; lit "   "] /\
               normalize w <> [] /\ x = stored_form w).
Proof.
  split; [reflexivity|].
  apply (C2_suggest_all_exact [lit "  Apple "; lit "a1"; lit "   "]).
  reflexivity.
Defined.

(** C3 as stated fails: after [insert("a1")], [getSuggestions("a1")]
    is empty, the walk of the prefix stops at the digit. *)
Lemma C3_counterexample :
  In (lit "a1") [lit "a1"] /\
  ~ In (normalize (lit "a1")) (getSuggestions (lit "a1") (build [lit "a1"])).
Proof. split; [now left | vm_compute; tauto]. Qed.

(** C3, amended. For every inserted word whose normalised form is not
    empty and has letters only, the suggestions for the word itself
    include its normalised form, whatever else was inserted before or
    after it. *)
Theorem C3_suggest_word_itself (ws : list cstring) (W : cstring) :
  In W ws ->
  normalize W <> [] ->
  forallb isalpha (normalize W) = true ->
  In (normalize W) (getSuggestions W (build ws)).
Proof.
  intros I N A; apply In_getSuggestions; [apply well_formed_build|].
  exists []; rewrite app_nil_r; split; [reflexivity|].
  apply terminal_at_build; exists W; repeat split; try assumption.
  unfold stored_form; now rewrite letters_all_alpha.
Qed.

Lemma C3_suggest_word_itself_witness :
  In (lit " Apple ") [lit "app"; lit " Apple "; lit "b2"] /\
  normalize (lit " Apple ") <> [] /\
  forallb isalpha (normalize (lit " Apple ")) = true /\
  In (normalize (lit " Apple "))
     (getSuggestions (lit " Apple ")
        (build [lit "app"; lit " Apple "; lit "b2"])).
Proof.
  assert (I : In (lit " Apple ") [lit "app"; lit " Apple "; lit "b2"])
    by (right; left; reflexivity).
  assert (N : normalize (lit " Apple ") <> []) by (vm_compute; discriminate).
  repeat split; try assumption; try reflexivity.
  apply (C3_suggest_word_itself _ _ I N); reflexivity.
Defined.

Lemma wraps_terminals_build (ws : list cstring) :
  wraps_terminals (build ws).
Proof.
  induction ws as [|w ws IH] using rev_ind; [reflexivity|].
  rewrite build_snoc; now apply wraps_terminals_insert.
Qed.

Lemma count_terminal_words (n : TrieNode) :
  count_terminal n = List.length (words n).
Proof.
  induction n as [e cs IH] using TrieNode_nested_ind.
  rewrite words_node, length_app, count_terminal_node; simpl.
  f_equal; [now destruct e|].
  induction IH as [|[k c] cs Hc _ IHcs]; simpl; [reflexivity|].
  rewrite length_app, length_map; simpl in Hc.
  now rewrite Hc, IHcs.
Qed.

(** The index holds a set of words: the order of the [insert]s changes
    neither a suggestion nor the count. *)
Lemma build_perm (ws ws' : list cstring) :
  Permutation ws ws' ->
  getWordCount (build ws) = getWordCount (build ws') /\
  forall P, getSuggestions P (build ws) = getSuggestions P (build ws').
Proof.
  intros Pm.
  pose proof (well_formed_build ws) as W; pose proof (well_formed_build ws') as W'.
  assert (T : forall x, terminal_at (root (build ws)) x
                        = terminal_at (root (build ws')) x).
  { intros x; apply eq_iff_eq_true; rewrite !terminal_at_build.
    split; intros (w & I & H); exists w; (split; [|exact H]).
    - eapply Permutation_in; [exact Pm | exact I].
    - eapply Permutation_in; [symmetry; exact Pm | exact I]. }
  split; [|intros P; now apply getSuggestions_by_terminals].
  unfold getWordCount.
  rewrite (wraps_terminals_build ws), (wraps_terminals_build ws').
  do 2 f_equal; rewrite !count_terminal_words.
  apply Permutation_length, NoDup_Permutation; try now apply words_NoDup.
  intros x; split; intros I.
  - apply terminal_at_words; rewrite <- T; now apply words_terminal_at.
  - apply terminal_at_words; rewrite T; now apply words_terminal_at.
Qed.

(** C4. From an empty index, inserting the five words "apple", "app",
    "apply", "apricot", "banana", in this or any other order, gives a
    count of 5 and the suggestions [app; apple; apply; apricot] for
    "ap", [banana] for "b" and none for "z". *)
Theorem C4_scenario (ws : list cstring) :
  Permutation ws
    (map lit ["apple"; "app"; "apply"; "apricot"; "banana"]%string) ->
  getWordCount (build ws) = 5%Z /\
  getSuggestions (lit "ap") (build ws)
    = map lit ["app"; "apple"; "apply"; "apricot"]%string /\
  getSuggestions (lit "b") (build ws) = [lit "banana"] /\
  getSuggestions (lit "z") (build ws) = [].
Proof.
  intros Pm; destruct (build_perm _ _ Pm) as (C & S).
  rewrite C, !S; vm_compute; repeat split.
Qed.

Lemma C4_scenario_witness :
  Permutation
    (map lit ["apple"; "app"; "apply"; "apricot"; "banana"]%string)
    (map lit ["apple"; "app"; "apply"; "apricot"; "banana"]%string) /\
  getWordCount
    (build (map lit ["apple"; "app"; "apply"; "apricot"; "banana"]%string))
  = 5%Z /\
  getSuggestions (lit "ap")
    (build (map lit ["apple"; "app"; "apply"; "apricot"; "banana"]%string))
  = map lit ["app"; "apple"; "apply"; "apricot"]%string /\
  getSuggestions (lit "b")
    (build (map lit ["apple"; "app"; "apply"; "apricot"; "banana"]%string))
  = [lit "banana"] /\
  getSuggestions (lit "z")
    (build (map lit ["apple"; "app"; "apply"; "apricot"; "banana"]%string))
  = [].
Proof.
  split; [apply Permutation_refl|].
  apply (C4_scenario
           (map lit ["apple"; "app"; "apply"; "apricot"; "banana"]%string)).
  apply Permutation_refl.
Defined.

Lemma iter_insert (w : cstring) (t : Trie) (N : nat) :
  Nat.iter (S N) (insert w) t = insert w t.
Proof.
  induction N as [|N IH]; [reflexivity|].
  change (Nat.iter (S (S N)) (insert w) t)
    with (insert w (Nat.iter (S N) (insert w) t)).
  rewrite IH; apply insert_twice.
Qed.

(** C5. Inserting a word again does not change the count: [N >= 1]
    insertions of a word leave the count of the first one, from any
    index; and so does the insertion of a word that normalises like a
    word inserted earlier, whatever was inserted in between. *)
Theorem C5_insert_idempotent (t : Trie) (w w' : cstring) (N : nat)
  (between : list cstring) :
  1 <= N ->
  normalize w' = normalize w ->
  getWordCount (Nat.iter N (insert w) t) = getWordCount (insert w t) /\
  getWordCount (insert w' (insert w t)) = getWordCount (insert w t) /\
  getWordCount (insert w' (insert_all between (insert w t)))
    = getWordCount (insert_all between (insert w t)).
Proof.
  intros L E; repeat split.
  - destruct N as [|N]; [lia|]; now rewrite iter_insert.
  - now rewrite (insert_normalize _ _ _ E), insert_twice.
  - unfold getWordCount; rewrite (insert_normalize _ _ _ E).
    destruct (normalize w) eqn:Z.
    + unfold insert at 1; now rewrite Z.
    + apply insert_stored, terminal_at_insert_all, terminal_at_insert.
      left; split; congruence.
Qed.

Lemma C5_insert_idempotent_witness :
  1 <= 3 /\
  normalize (lit " CAT ") = normalize (lit "cat") /\
  getWordCount (Nat.iter 3 (insert (lit "cat")) (build [lit "dog"]))
    = getWordCount (insert (lit "cat") (build [lit "dog"])) /\
  getWordCount (insert (lit " CAT ")
                  (insert (lit "cat") (build [lit "dog"])))
    = getWordCount (insert (lit "cat") (build [lit "dog"])) /\
  getWordCount (insert (lit " CAT ")
                  (insert_all [lit "cow"]
                     (insert (lit "cat") (build [lit "dog"]))))
    = getWordCount (insert_all [lit "cow"]
                      (insert (lit "cat") (build [lit "dog"]))).
Proof.
  split; [lia|]; split; [reflexivity|].
  apply (C5_insert_idempotent (build [lit "dog"]) (lit "cat") (lit " CAT ")
           3 [lit "cow"]); [lia | reflexivity].
Defined.

(** C6. In every state the index can reach, the suggestions for any
    prefix are in non-decreasing byte-wise lexicographic order and hold
    no string twice. *)
Theorem C6_suggestions_sorted_distinct (ops : list Op) (P : cstring) :
  Sorted string_le (getSuggestions P (run ops emptyTrie)) /\
  NoDup (getSuggestions P (run ops emptyTrie)).
Proof.
  split; [apply getSuggestions_sorted|].
  apply getSuggestions_NoDup, well_formed_run.
Qed.

Lemma counts_terminals_step (op : Op) (t : Trie) :
  counts_terminals t ->
  (Z.of_nat (count_terminal (root (fst (step op t)))) <= INT_MAX)%Z ->
  counts_terminals (fst (step op t)).
Proof. destruct op; simpl; auto using counts_terminals_insert. Qed.

Lemma wraps_terminals_run (ops : list Op) :
  wraps_terminals (run ops emptyTrie).
Proof. rewrite run_build; apply wraps_terminals_build. Qed.

Lemma counts_terminals_run (ops : list Op) :
  (Z.of_nat (count_terminal (root (run ops emptyTrie))) <= INT_MAX)%Z ->
  counts_terminals (run ops emptyTrie).
Proof.
  intros B; unfold counts_terminals; rewrite (wraps_terminals_run ops).
  apply int_wrap_small; unfold INT_MIN; lia.
Qed.

Lemma inserted_map (ws : list cstring) : inserted (map OpInsert ws) = ws.
Proof. induction ws as [|w ws IH]; simpl; congruence. Qed.

Lemma normalize_repeat_a (k : nat) :
  normalize (repeat "a"%char (S k)) = repeat "a"%char (S k).
Proof.
  unfold normalize; rewrite trim_fixed.
  - unfold toLower; now rewrite map_repeat.
  - intros c [= <-]; reflexivity.
  - intros c H.
    assert (I : In c (rev (repeat "a"%char (S k))))
      by (destruct (rev _); [discriminate | injection H as ->; now left]).
    apply in_rev, repeat_spec in I; now subst c.
Qed.

Lemma stored_form_repeat_a (k : nat) :
  stored_form (repeat "a"%char (S k)) = repeat "a"%char (S k).
Proof.
  unfold stored_form; rewrite normalize_repeat_a.
  apply letters_all_alpha, forallb_forall; intros c I.
  apply repeat_spec in I; now subst c.
Qed.

Lemma many_words_NoDup (n : nat) : NoDup (many_words n).
Proof.
  apply Injective_map_NoDup; [|apply seq_NoDup].
  intros a b E; apply (f_equal (@List.length ascii)) in E.
  now rewrite !repeat_length in E.
Qed.

(** After the insertion of "a", "aa", ... up to [n] letters the tree has
    [n] terminal nodes. *)
Lemma many_words_count (n : nat) :
  count_terminal (root (build (many_words n))) = n.
Proof.
  rewrite count_terminal_words.
  pose proof (well_formed_build (many_words n)) as W.
  transitivity (List.length (many_words n));
    [|unfold many_words; now rewrite length_map, length_seq].
  apply Permutation_length, NoDup_Permutation.
  - now apply words_NoDup.
  - apply many_words_NoDup.
  - intros x; split.
    + intros I; apply words_terminal_at, terminal_at_build in I; [|exact W].
      destruct I as (w & I & _ & ->).
      unfold many_words in I; apply in_map_iff in I.
      destruct I as (k & <- & Ik); apply in_seq in Ik.
      destruct k as [|k]; [lia|]; rewrite stored_form_repeat_a.
      apply in_map, in_seq; lia.
    + intros I; apply terminal_at_words, terminal_at_build.
      exists x; split; [exact I|].
      unfold many_words in I; apply in_map_iff in I.
      destruct I as (k & <- & Ik); apply in_seq in Ik.
      destruct k as [|k]; [lia|].
      rewrite normalize_repeat_a, stored_form_repeat_a; split;
        [discriminate | reflexivity].
Qed.

(** C7 as stated fails where the words no longer fit an [int]: after the
    insertion of the 2^31 words "a", "aa", "aaa", ... the tree has 2^31
    terminal nodes and [wordCount], incremented 2^31 times from 0, is
    [INT_MIN]. *)
Lemma C7_counterexample :
  Z.of_nat (count_terminal
              (root (run (many_inserts (Z.to_nat 2147483648)) emptyTrie)))
  = 2147483648%Z /\
  wordCount (run (many_inserts (Z.to_nat 2147483648)) emptyTrie) = INT_MIN /\
  ~ counts_terminals (run (many_inserts (Z.to_nat 2147483648)) emptyTrie).
Proof.
  assert (Hn : Z.of_nat (Z.to_nat 2147483648) = 2147483648%Z)
    by (apply Z2Nat.id; discriminate).
  revert Hn; generalize (Z.to_nat 2147483648); intros n Hn.
  assert (C : count_terminal (root (run (many_inserts n) emptyTrie)) = n).
  { unfold many_inserts; rewrite run_build, inserted_map.
    apply many_words_count. }
  assert (V : wordCount (run (many_inserts n) emptyTrie) = INT_MIN).
  { rewrite (wraps_terminals_run (many_inserts n)), C, Hn; reflexivity. }
  unfold counts_terminals; rewrite V, C, Hn; repeat split.
  discriminate.
Qed.

(** C7, amended. After any sequence of [insert], [getSuggestions] and
    [getWordCount] calls on a fresh index that leaves at most [INT_MAX]
    terminal nodes in the tree, [wordCount] is the number of terminal
    nodes; and each of the three operations keeps that equality, from
    any index that has it, when it leaves at most [INT_MAX] terminal
    nodes. *)
Theorem C7_wordCount_counts_terminals :
  (forall ops,
     (Z.of_nat (count_terminal (root (run ops emptyTrie))) <= INT_MAX)%Z ->
     counts_terminals (run ops emptyTrie)) /\
  (forall op t,
     counts_terminals t ->
     (Z.of_nat (count_terminal (root (fst (step op t)))) <= INT_MAX)%Z ->
     counts_terminals (fst (step op t))).
Proof. split; [exact counts_terminals_run | exact counts_terminals_step]. Qed.

Lemma C7_wordCount_counts_terminals_witness :
  ((Z.of_nat (count_terminal
                (root (run [OpInsert (lit "a"); OpCount; OpInsert (lit "ab")]
                         emptyTrie))) <= INT_MAX)%Z /\
   counts_terminals
     (run [OpInsert (lit "a"); OpCount; OpInsert (lit "ab")] emptyTrie)) /\
  (counts_terminals (mkTrie (mkNode true [("a"%char, mkNode true [])]) 2) /\
   (Z.of_nat (count_terminal
                (root (fst (step (OpInsert (lit "b"))
                              (mkTrie (mkNode true [("a"%char, mkNode true [])])
                                 2))))) <= INT_MAX)%Z /\
   counts_terminals
     (fst (step (OpInsert (lit "b"))
             (mkTrie (mkNode true [("a"%char, mkNode true [])]) 2)))).
Proof.
  assert (B1 : (Z.of_nat (count_terminal
                  (root (run [OpInsert (lit "a"); OpCount; OpInsert (lit "ab")]
                           emptyTrie))) <= INT_MAX)%Z)
    by (vm_compute; discriminate).
  assert (H : counts_terminals
                (mkTrie (mkNode true [("a"%char, mkNode true [])]) 2))
    by reflexivity.
  assert (B2 : (Z.of_nat (count_terminal
                  (root (fst (step (OpInsert (lit "b"))
                                (mkTrie (mkNode true [("a"%char, mkNode true [])])
                                   2))))) <= INT_MAX)%Z)
    by (vm_compute; discriminate).
  split; [split; [exact B1|] | split; [exact H | split; [exact B2|]]].
  - exact (proj1 C7_wordCount_counts_terminals _ B1).
  - exact (proj2 C7_wordCount_counts_terminals (OpInsert (lit "b")) _ H B2).
Defined.

(** C8. In every state the index can reach, a prefix whose normalised
    form has a character that is not alphabetic gets no suggestion:
    [insert] makes edges of alphabetic characters only, and
    [searchPrefix] follows every character of the prefix. *)
Theorem C8_non_alpha_prefix_no_match (ops : list Op) (P : cstring) :
  forallb isalpha (normalize P) = false ->
  getSuggestions P (run ops emptyTrie) = [].
Proof.
  intros H; rewrite getSuggestions_words.
  assert (E : exists ch, In ch (normalize P) /\ isalpha ch = false).
  { induction (normalize P) as [|c p IH]; simpl in H; [discriminate|].
    destruct (isalpha c) eqn:A; simpl in H.
    - destruct (IH H) as (ch & I & F); exists ch; split; [now right|exact F].
    - exists c; split; [now left|exact A]. }
  destruct E as (ch & I & F).
  now rewrite (searchPrefix_not_alpha _ ch I F _ (well_formed_run ops)).
Qed.

Lemma C8_non_alpha_prefix_no_match_witness :
  forallb isalpha (normalize (lit " Ab1 ")) = false /\
  getSuggestions (lit " Ab1 ")
    (run [OpInsert (lit "ab1"); OpCount; OpInsert (lit "abacus")] emptyTrie)
  = [].
Proof.
  split; [reflexivity|].
  apply (C8_non_alpha_prefix_no_match
           [OpInsert (lit "ab1"); OpCount; OpInsert (lit "abacus")]
           (lit " Ab1 ")).
  reflexivity.
Defined.

(** C9. [insert] of a text whose normalised form is empty, which is an
    empty or whitespace-only text, returns normally and leaves the index
    as it was: same state, same count, same suggestions for every
    prefix. *)
Theorem C9_insert_empty_noop (t : Trie) (w : cstring) :
  normalize w = [] ->
  forallb is_space w = true /\
  step (OpInsert w) t = (t, OutVoid) /\
  insert w t = t /\
  getWordCount (insert w t) = getWordCount t /\
  forall P, getSuggestions P (insert w t) = getSuggestions P t.
Proof.
  intros E.
  assert (I : insert w t = t) by (unfold insert; now rewrite E).
  repeat split; simpl; rewrite ?I; try reflexivity.
  now apply normalize_nil_iff.
Qed.

Lemma C9_insert_empty_noop_witness :
  normalize (lit "   ") = [] /\
  (forallb is_space (lit "   ") = true /\
   step (OpInsert (lit "   ")) (build [lit "cat"])
     = (build [lit "cat"], OutVoid) /\
   insert (lit "   ") (build [lit "cat"]) = build [lit "cat"] /\
   getWordCount (insert (lit "   ") (build [lit "cat"]))
     = getWordCount (build [lit "cat"]) /\
   forall P,
     getSuggestions P (insert (lit "   ") (build [lit "cat"]))
     = getSuggestions P (build [lit "cat"])).
Proof.
  split; [reflexivity|].
  apply (C9_insert_empty_noop (build [lit "cat"]) (lit "   ")).
  reflexivity.
Defined.

(** C10. [getSuggestions] is a function of the calls made before it:
    in whatever order the child maps iterate after each call, the result
    for a prefix is that of the reference run, and so is the count. It
    is read-only: the call leaves the index as it was, so that a second
    call returns the same sequence, also when the maps iterate in another
    order by then, and the count and the suggestions for every other
    prefix are those from before the call. *)
Theorem C10_suggest_deterministic_read_only
  (ops : list Op) (t : Trie) (P : cstring) :
  reaches ops t ->
  getSuggestions P t = getSuggestions P (run ops emptyTrie) /\
  getWordCount t = getWordCount (run ops emptyTrie) /\
  fst (step (OpSuggest P) t) = t /\
  snd (step (OpSuggest P) (fst (step (OpSuggest P) t)))
    = snd (step (OpSuggest P) t) /\
  (forall t', trie_equiv (fst (step (OpSuggest P) t)) t' ->
     getSuggestions P t' = getSuggestions P t) /\
  getWordCount (fst (step (OpSuggest P) t)) = getWordCount t /\
  (forall Q, getSuggestions Q (fst (step (OpSuggest P) t))
             = getSuggestions Q t).
Proof.
  intros R; destruct (reaches_sound _ _ R) as (W & T & C).
  pose proof (well_formed_run ops) as Wr.
  repeat split; try assumption.
  - now apply getSuggestions_by_terminals.
  - simpl; intros t' (N & _).
    pose proof (well_formed_equiv _ _ N W) as W'.
    apply getSuggestions_by_terminals; try assumption.
    intros x; symmetry; now apply terminal_at_equiv.
Qed.

Lemma C10_suggest_deterministic_read_only_witness :
  reaches [OpInsert (lit "b"); OpInsert (lit "a")]
    (mkTrie (mkNode false [("a"%char, mkNode true []);
                           ("b"%char, mkNode true [])]) 2) /\
  root (run [OpInsert (lit "b"); OpInsert (lit "a")] emptyTrie)
  = mkNode false [("b"%char, mkNode true []); ("a"%char, mkNode true [])] /\
  getSuggestions (lit "")
    (mkTrie (mkNode false [("a"%char, mkNode true []);
                           ("b"%char, mkNode true [])]) 2)
  = getSuggestions (lit "")
      (run [OpInsert (lit "b"); OpInsert (lit "a")] emptyTrie).
Proof.
  assert (R : reaches [OpInsert (lit "b"); OpInsert (lit "a")]
                (mkTrie (mkNode false [("a"%char, mkNode true []);
                                       ("b"%char, mkNode true [])]) 2)).
  { apply (reaches_step [OpInsert (lit "b")] (OpInsert (lit "a"))
             (insert (lit "b") emptyTrie)).
    - apply (reaches_step [] (OpInsert (lit "b")) emptyTrie);
        [apply reaches_nil | apply trie_equiv_refl].
    - split; [|reflexivity].
      change (node_equiv
                (mkNode false [("b"%char, mkNode true []);
                               ("a"%char, mkNode true [])])
                (mkNode false [("a"%char, mkNode true []);
                               ("b"%char, mkNode true [])])).
      apply node_equiv_node; split; [reflexivity|].
      exists [("b"%char, mkNode true []); ("a"%char, mkNode true [])].
      split; [apply perm_swap|].
      repeat constructor; exists []; split; constructor. }
  split; [exact R|]; split; [reflexivity|].
  apply (C10_suggest_deterministic_read_only
           [OpInsert (lit "b"); OpInsert (lit "a")]
           (mkTrie (mkNode false [("a"%char, mkNode true []);
                                  ("b"%char, mkNode true [])]) 2)
           (lit "") R).
Defined.

(** ** Further properties of the code *)

(** *** [trim] *)

Lemma trim_ends (str : cstring) :
  (forall a, hd_error (trim str) = Some a -> is_space a = false) /\
  (forall a, hd_error (rev (trim str)) = Some a -> is_space a = false).
Proof.
  destruct (find_first_not_of str) as [first|] eqn:F.
  - destruct (trim_shape _ _ F)
      as (init & c & trail & E & Le & T & S1 & C & S2 & H).
    split; [exact H|].
    rewrite T, rev_app_distr; simpl; congruence.
  - assert (T : trim str = []) by (unfold trim; now rewrite F).
    rewrite T; split; discriminate.
Qed.

(** X1. [trim] cuts whitespace off both ends and nothing else: the text
    is whitespace, then its trimmed form, then whitespace, and the
    trimmed form neither starts nor ends with a whitespace character. *)
Theorem X1_trim_cuts_both_ends (str : cstring) :
  (exists lead trail,
     str = lead ++ trim str ++ trail /\
     forallb is_space lead = true /\ forallb is_space trail = true) /\
  (forall a, hd_error (trim str) = Some a -> is_space a = false) /\
  (forall a, hd_error (rev (trim str)) = Some a -> is_space a = false).
Proof.
  split; [|apply trim_ends].
  destruct (find_first_not_of str) as [first|] eqn:F.
  - destruct (trim_shape _ _ F)
      as (init & c & trail & E & Le & T & S1 & C & S2 & H).
    exists (firstn first init), trail; repeat split; try assumption.
    rewrite T, <- !app_assoc, app_assoc, firstn_skipn; exact E.
  - assert (T : trim str = []) by (unfold trim; now rewrite F).
    rewrite T; exists str, []; rewrite app_nil_r; repeat split.
    now apply find_first_None.
Qed.

(** X2. [trim] is idempotent, and it returns unchanged every text that
    neither starts nor ends with a whitespace character. *)
Theorem X2_trim_idempotent (str : cstring) :
  trim (trim str) = trim str /\
  ((forall a, hd_error str = Some a -> is_space a = false) ->
   (forall a, hd_error (rev str) = Some a -> is_space a = false) ->
   trim str = str).
Proof.
  split; [|apply trim_fixed].
  destruct (trim_ends str) as (H & T); now apply trim_fixed.
Qed.

Lemma X2_trim_idempotent_witness :
  (forall a, hd_error (lit "a b") = Some a -> is_space a = false) /\
  (forall a, hd_error (rev (lit "a b")) = Some a -> is_space a = false) /\
  trim (lit "a b") = lit "a b".
Proof.
  assert (H : forall a, hd_error (lit "a b") = Some a -> is_space a = false)
    by (intros a [= <-]; reflexivity).
  assert (T : forall a, hd_error (rev (lit "a b")) = Some a ->
                        is_space a = false)
    by (intros a [= <-]; reflexivity).
  split; [exact H|]; split; [exact T|].
  exact (proj2 (X2_trim_idempotent (lit "a b")) H T).
Defined.

(** *** [toLower] and the normalisation *)

Lemma code_tolower_upper (c : ascii) :
  isupper c = true -> code (tolower c) = code c + 32.
Proof.
  unfold tolower, isupper; intros U; rewrite U.
  unfold code in *; apply nat_ascii_embedding.
  bool_arith; lia.
Qed.

Lemma tolower_fixed (c : ascii) : isupper c = false -> tolower c = c.
Proof. unfold tolower, isupper; now intros ->. Qed.

Ltac bool_lia :=
  apply eq_iff_eq_true;
  rewrite ?orb_true_iff, ?andb_true_iff, ?Nat.leb_le, ?Nat.eqb_eq;
  split; try discriminate; lia.

Lemma isupper_tolower (c : ascii) : isupper (tolower c) = false.
Proof.
  destruct (isupper c) eqn:U; [|now rewrite tolower_fixed].
  unfold isupper; rewrite (code_tolower_upper _ U).
  unfold isupper in U; bool_arith; bool_lia.
Qed.

Lemma tolower_idem (c : ascii) : tolower (tolower c) = tolower c.
Proof. apply tolower_fixed, isupper_tolower. Qed.

Lemma is_space_tolower (c : ascii) : is_space (tolower c) = is_space c.
Proof.
  destruct (isupper c) eqn:U; [|now rewrite tolower_fixed].
  unfold is_space; rewrite (code_tolower_upper _ U).
  unfold isupper in U; bool_arith; bool_lia.
Qed.

(** After [tolower] a letter is a lowercase letter. *)
Lemma islower_tolower (c : ascii) : islower (tolower c) = isalpha c.
Proof.
  unfold islower, isalpha.
  destruct (isupper c) eqn:U.
  - rewrite (code_tolower_upper _ U); unfold isupper in U.
    bool_arith; bool_lia.
  - rewrite (tolower_fixed _ U); unfold isupper in U.
    apply andb_false_iff in U; destruct U; bool_arith; bool_lia.
Qed.

Lemma isalpha_tolower (c : ascii) : isalpha (tolower c) = isalpha c.
Proof.
  destruct (isupper c) eqn:U; [|now rewrite tolower_fixed].
  unfold isalpha; rewrite (code_tolower_upper _ U).
  unfold isupper in U; bool_arith; bool_lia.
Qed.

Lemma find_first_toLower (str : cstring) :
  find_first_not_of (toLower str) = find_first_not_of str.
Proof.
  induction str as [|c str IH]; simpl; [reflexivity|].
  now rewrite is_space_tolower, IH.
Qed.

Lemma find_last_toLower (str : cstring) :
  find_last_not_of (toLower str) = find_last_not_of str.
Proof.
  induction str as [|c str IH]; simpl; [reflexivity|].
  now rewrite is_space_tolower, IH.
Qed.

Lemma trim_toLower (str : cstring) : trim (toLower str) = toLower (trim str).
Proof.
  unfold trim, substr; rewrite find_first_toLower, find_last_toLower.
  unfold toLower.
  destruct (find_first_not_of str); [|reflexivity].
  destruct (find_last_not_of str); now rewrite ?skipn_map, ?firstn_map.
Qed.

Lemma toLower_idem (str : cstring) : toLower (toLower str) = toLower str.
Proof.
  unfold toLower; rewrite map_map; apply map_ext, tolower_idem.
Qed.

Lemma trim_idem (str : cstring) : trim (trim str) = trim str.
Proof. destruct (trim_ends str); now apply trim_fixed. Qed.

Lemma normalize_idem (text : cstring) : normalize (normalize text) = normalize text.
Proof.
  unfold normalize; now rewrite trim_toLower, trim_idem, toLower_idem.
Qed.

(** X3. [toLower] keeps the length, turns every uppercase ASCII letter
    into the lowercase one and changes no other byte, so that no
    uppercase letter is left, a second pass changes nothing, and the
    letters are at the same places as before. *)
Theorem X3_toLower_lowercases (str : cstring) :
  List.length (toLower str) = List.length str /\
  forallb (fun c => negb (isupper c)) (toLower str) = true /\
  toLower (toLower str) = toLower str /\
  (toLower str = str <-> forallb (fun c => negb (isupper c)) str = true) /\
  map isalpha (toLower str) = map isalpha str /\
  forall c, In c (toLower str) -> isalpha c = islower c.
Proof.
  unfold toLower; repeat split.
  - apply length_map.
  - apply forallb_forall; intros c I; apply in_map_iff in I.
    destruct I as (a & <- & _); now rewrite isupper_tolower.
  - apply toLower_idem.
  - intros E; rewrite <- E; apply forallb_forall; intros c I.
    apply in_map_iff in I; destruct I as (a & <- & _).
    now rewrite isupper_tolower.
  - intros H; rewrite forallb_forall in H.
    rewrite <- (map_id str) at 2; apply map_ext_in; intros c I.
    apply tolower_fixed; specialize (H c I); now destruct (isupper c).
  - rewrite map_map; apply map_ext, isalpha_tolower.
  - intros c I; apply in_map_iff in I; destruct I as (a & <- & _).
    now rewrite isalpha_tolower, islower_tolower.
Qed.

(** X4. The index does not tell a text from its trimmed, its lowercased
    or its normalised form: normalising is idempotent and absorbs [trim]
    and [toLower], so [insert] and [getSuggestions] give the same for
    all of them. *)
Theorem X4_case_and_blank_insensitive (text : cstring) (t : Trie) :
  normalize (normalize text) = normalize text /\
  normalize (trim text) = normalize text /\
  normalize (toLower text) = normalize text /\
  insert (trim text) t = insert text t /\
  insert (toLower text) t = insert text t /\
  insert (normalize text) t = insert text t /\
  getSuggestions (trim text) t = getSuggestions text t /\
  getSuggestions (toLower text) t = getSuggestions text t /\
  getSuggestions (normalize text) t = getSuggestions text t.
Proof.
  assert (N := normalize_idem text).
  assert (T : normalize (trim text) = normalize text)
    by (unfold normalize; now rewrite trim_idem).
  assert (L : normalize (toLower text) = normalize text)
    by (unfold normalize; now rewrite trim_toLower, toLower_idem).
  repeat split; try assumption; try (now apply insert_normalize);
    unfold getSuggestions; now rewrite ?N, ?T, ?L.
Qed.

(** *** [searchPrefix], [collectSuggestions], [getSuggestions] *)

Lemma starts_with_iff (p y : cstring) :
  starts_with p y = true <-> exists s, y = p ++ s.
Proof.
  revert y; induction p as [|a p IH]; intros y; simpl.
  - split; [intros _; now exists y | reflexivity].
  - destruct y as [|b y]; [split; [discriminate | intros (s & E); discriminate]|].
    rewrite andb_true_iff, IH; split.
    + intros (E & s & ->); apply Ascii.eqb_eq in E; subst; now exists s.
    + intros (s & [= -> ->]); split; [apply Ascii.eqb_refl | now exists s].
Qed.

Lemma searchPrefix_app (p s : cstring) :
  forall n,
    searchPrefix n (p ++ s) =
    match searchPrefix n p with
    | Some m => searchPrefix m s
    | None => None
    end.
Proof.
  induction p as [|k p IH]; intros n; simpl; [reflexivity|].
  destruct (find k (children n)); [apply IH | reflexivity].
Qed.

Lemma filter_sorted (f : cstring -> bool) (l : list cstring) :
  Sorted string_le l -> Sorted string_le (filter f l).
Proof.
  intros S; apply Sorted_StronglySorted in S; [|exact string_le_trans].
  apply StronglySorted_Sorted.
  induction S as [|x l S IH F]; simpl; [constructor|].
  destruct (f x); [|assumption].
  constructor; [assumption|].
  rewrite Forall_forall in *; intros y I; apply filter_In in I.
  now apply F.
Qed.

(** X5. [searchPrefix] walks a concatenation in two legs: the node of
    [p ++ s] is the node of [s] from the node of [p], and it is [nullptr]
    as soon as the node of [p] is. *)
Theorem X5_searchPrefix_composes (n : TrieNode) (p s : cstring) :
  searchPrefix n (p ++ s) =
  match searchPrefix n p with
  | Some m => searchPrefix m s
  | None => None
  end.
Proof. apply searchPrefix_app. Qed.

(** X6. After [insert] of a word that is not empty after trimming,
    [searchPrefix] finds a node for every prefix of its stored form, the
    node of the whole stored form ends a word, and this stays so
    whatever is inserted later. *)
Theorem X6_insert_then_searchPrefix
  (t : Trie) (w : cstring) (later : list cstring) (p s : cstring) :
  normalize w <> [] ->
  stored_form w = p ++ s ->
  exists m last,
    searchPrefix (root (insert_all later (insert w t))) p = Some m /\
    searchPrefix m s = Some last /\
    isEndOfWord last = true.
Proof.
  intros N E.
  assert (T : terminal_at (root (insert_all later (insert w t)))
                (stored_form w) = true).
  { apply terminal_at_insert_all, terminal_at_insert; now left. }
  unfold terminal_at in T; rewrite E, searchPrefix_app in T.
  destruct (searchPrefix _ p) as [m|]; [|discriminate].
  destruct (searchPrefix m s) as [last|] eqn:L; [|discriminate].
  now exists m, last.
Qed.

Lemma X6_insert_then_searchPrefix_witness :
  normalize (lit " Ab-c ") <> [] /\
  stored_form (lit " Ab-c ") = lit "ab" ++ lit "c" /\
  exists m last,
    searchPrefix
      (root (insert_all [lit "abd"] (insert (lit " Ab-c ") emptyTrie)))
      (lit "ab") = Some m /\
    searchPrefix m (lit "c") = Some last /\
    isEndOfWord last = true.
Proof.
  assert (N : normalize (lit " Ab-c ") <> []) by (vm_compute; discriminate).
  split; [exact N|]; split; [reflexivity|].
  apply (X6_insert_then_searchPrefix emptyTrie (lit " Ab-c ") [lit "abd"]
           (lit "ab") (lit "c") N).
  reflexivity.
Defined.

(** X7. [collectSuggestions] only appends to [results]: what was there
    stays in place, one string is added for each terminal node of the
    subtree, and each added string starts with [currentPrefix]. *)
Theorem X7_collectSuggestions_appends
  (node : TrieNode) (currentPrefix : cstring) (results : list cstring) :
  exists added,
    collectSuggestions node currentPrefix results = results ++ added /\
    List.length added = count_terminal node /\
    Forall (fun y => starts_with currentPrefix y = true) added.
Proof.
  exists (map (app currentPrefix) (words node)); repeat split.
  - apply collect_words.
  - now rewrite length_map, count_terminal_words.
  - apply Forall_forall; intros y I; apply in_map_iff in I.
    destruct I as (x & <- & _); apply starts_with_iff; now exists x.
Qed.

(** X8. Every suggestion starts with the normalised prefix, in any
    index. *)
Theorem X8_suggestions_start_with_prefix (P : cstring) (t : Trie) :
  Forall (fun y => starts_with (normalize P) y = true) (getSuggestions P t).
Proof.
  rewrite getSuggestions_words.
  destruct (searchPrefix _ _) as [m|]; [|constructor].
  apply Forall_forall; intros y I; apply sort_In, in_map_iff in I.
  destruct I as (x & <- & _); apply starts_with_iff; now exists x.
Qed.

(** X9. What [getSuggestions] returns after a sequence of [insert]s:
    exactly the stored forms of the inserted words (those not empty
    after trimming) that start with the normalised prefix. *)
Theorem X9_suggestions_are_matching_words
  (ws : list cstring) (P y : cstring) :
  In y (getSuggestions P (build ws)) <->
  starts_with (normalize P) y = true /\
  exists w, In w ws /\ normalize w <> [] /\ y = stored_form w.
Proof.
  rewrite In_getSuggestions by apply well_formed_build.
  rewrite starts_with_iff, <- terminal_at_build; split.
  - intros (s & -> & T); split; [now exists s | exact T].
  - intros ((s & ->) & T); now exists s.
Qed.

(** X10. In every state the index can reach, the suggestions for a
    prefix are the suggestions for the empty prefix, in the same order,
    without those that do not start with the normalised prefix. *)
Theorem X10_suggestions_filter_all (ops : list Op) (P : cstring) :
  getSuggestions P (run ops emptyTrie) =
  filter (starts_with (normalize P)) (getSuggestions (lit "") (run ops emptyTrie)).
Proof.
  pose proof (well_formed_run ops) as W.
  apply sorted_perm_unique.
  - apply getSuggestions_sorted.
  - apply filter_sorted, getSuggestions_sorted.
  - apply NoDup_Permutation.
    + now apply getSuggestions_NoDup.
    + now apply NoDup_filter, getSuggestions_NoDup.
    + intros y; rewrite filter_In, !In_getSuggestions by assumption.
      change (normalize (lit "")) with (@nil ascii); simpl.
      rewrite starts_with_iff; split.
      * intros (s & -> & T); repeat split; eauto.
      * intros ((x & -> & T) & s & E); exists s; split; congruence.
Qed.

Lemma length_all_suggestions (t : Trie) :
  List.length (getSuggestions (lit "") t) = count_terminal (root t).
Proof.
  change (lit "") with (@nil ascii).
  rewrite getSuggestions_all, count_terminal_words.
  apply Permutation_length, sort_perm.
Qed.

(** X11. In every state the index can reach in which the suggestions for
    the empty prefix can be counted in an [int], [getWordCount] is their
    number. *)
Theorem X11_count_is_number_of_words (ops : list Op) :
  (Z.of_nat (List.length (getSuggestions (lit "") (run ops emptyTrie)))
   <= INT_MAX)%Z ->
  getWordCount (run ops emptyTrie)
  = Z.of_nat (List.length (getSuggestions (lit "") (run ops emptyTrie))).
Proof.
  rewrite length_all_suggestions; apply counts_terminals_run.
Qed.

Lemma X11_count_is_number_of_words_witness :
  (Z.of_nat (List.length
               (getSuggestions (lit "")
                  (run [OpInsert (lit "cat"); OpInsert (lit "Cat ");
                        OpInsert (lit "dog")] emptyTrie)))
   <= INT_MAX)%Z /\
  getWordCount
    (run [OpInsert (lit "cat"); OpInsert (lit "Cat "); OpInsert (lit "dog")]
       emptyTrie)
  = Z.of_nat (List.length
                (getSuggestions (lit "")
                   (run [OpInsert (lit "cat"); OpInsert (lit "Cat ");
                         OpInsert (lit "dog")] emptyTrie))).
Proof.
  assert (B : (Z.of_nat (List.length
                 (getSuggestions (lit "")
                    (run [OpInsert (lit "cat"); OpInsert (lit "Cat ");
                          OpInsert (lit "dog")] emptyTrie)))
               <= INT_MAX)%Z)
    by (vm_compute; discriminate).
  split; [exact B|].
  exact (X11_count_is_number_of_words
           [OpInsert (lit "cat"); OpInsert (lit "Cat "); OpInsert (lit "dog")]
           B).
Defined.

(** *** [insert] *)

Lemma set_child_find (ch : ascii) (c : TrieNode) m :
  find ch m = Some c -> set_child ch c m = m.
Proof.
  induction m as [|[k c0] m IH]; simpl; [discriminate|].
  destruct (Ascii.eqb k ch); [now intros [= ->] | intros F; now rewrite IH].
Qed.

(** The walk of a word whose letters are a terminal path already
    changes nothing. *)
Lemma insert_from_stored (cleanWord : cstring) :
  forall n,
    terminal_at n (letters cleanWord) = true ->
    insert_from cleanWord n = (n, false).
Proof.
  induction cleanWord as [|ch w IH]; intros n; simpl.
  - rewrite terminal_at_nil; now intros ->.
  - destruct (isalpha ch) eqn:A; simpl; [|apply IH].
    rewrite terminal_at_cons.
    destruct (find ch (children n)) as [c|] eqn:F; [|discriminate].
    intros T; rewrite (IH c T), (set_child_find _ _ _ F); now destruct n.
Qed.

(** The walk removes no node. *)
Lemma searchPrefix_insert_from (cleanWord : cstring) :
  forall n p,
    searchPrefix n p <> None ->
    searchPrefix (fst (insert_from cleanWord n)) p <> None.
Proof.
  induction cleanWord as [|ch w IH]; intros n p; simpl.
  - destruct (isEndOfWord n); [auto|]; now destruct p.
  - destruct (isalpha ch) eqn:A; simpl; [|apply IH].
    set (child := match find ch (children n) with
                  | Some c => c | None => newNode end).
    pose proof (IH child) as H.
    destruct (insert_from w child) as [c' inc]; simpl in *.
    destruct p as [|k p]; simpl; [discriminate|].
    destruct (Ascii.eqb_spec k ch) as [->|N].
    + rewrite find_set_child_same; subst child.
      destruct (find ch (children n)); [apply H | congruence].
    + now rewrite find_set_child_other.
Qed.

(** X12. The index only grows. Every suggestion for a prefix is still
    one after a further call, and a node that [searchPrefix] found is
    still found. The count stays or goes up by one, as long as it was
    below [INT_MAX] before the call. *)
Theorem X12_index_only_grows (ops : list Op) (op : Op) (P : cstring) :
  ((getWordCount (run ops emptyTrie) < INT_MAX)%Z ->
   (getWordCount (run ops emptyTrie)
      <= getWordCount (run (ops ++ [op]) emptyTrie)
      <= getWordCount (run ops emptyTrie) + 1)%Z) /\
  incl (getSuggestions P (run ops emptyTrie))
       (getSuggestions P (run (ops ++ [op]) emptyTrie)) /\
  forall p,
    searchPrefix (root (run ops emptyTrie)) p <> None ->
    searchPrefix (root (run (ops ++ [op]) emptyTrie)) p <> None.
Proof.
  rewrite run_snoc; pose proof (well_formed_run ops) as W.
  assert (R : (INT_MIN <= wordCount (run ops emptyTrie))%Z).
  { rewrite (wraps_terminals_run ops); apply int_wrap_range. }
  destruct op as [w|q|]; simpl;
    try (repeat split; [lia | lia | apply incl_refl | auto]).
  unfold getWordCount; rewrite insert_wordCount, insert_root.
  split; [|split].
  - intros B; destruct (normalize w); [lia|].
    destruct (snd _); [|lia].
    rewrite int_wrap_small; unfold INT_MIN, INT_MAX in *; lia.
  - intros y; rewrite !In_getSuggestions
      by (try apply well_formed_insert; exact W).
    intros (s & -> & T); exists s; split; [reflexivity|].
    apply terminal_at_insert; now right.
  - intros p; destruct (normalize w); [auto|].
    apply searchPrefix_insert_from.
Qed.

Lemma X12_index_only_grows_witness :
  (getWordCount (run [OpInsert (lit "cat")] emptyTrie) < INT_MAX)%Z /\
  (getWordCount (run [OpInsert (lit "cat")] emptyTrie)
     <= getWordCount (run ([OpInsert (lit "cat")] ++ [OpInsert (lit "car")])
                        emptyTrie)
     <= getWordCount (run [OpInsert (lit "cat")] emptyTrie) + 1)%Z.
Proof.
  assert (B : (getWordCount (run [OpInsert (lit "cat")] emptyTrie)
               < INT_MAX)%Z) by reflexivity.
  split; [exact B|].
  exact (proj1 (X12_index_only_grows [OpInsert (lit "cat")]
                  (OpInsert (lit "car")) (lit "")) B).
Defined.

(** X13. What [insert] of a word that is not empty after trimming does
    depends on whether its stored form ends a word already: if so the
    call changes nothing at all; if not the stored form ends a word
    afterwards and the count, when it was an [int] below [INT_MAX], goes
    up by one. *)
Theorem X13_insert_stored_or_new (t : Trie) (w : cstring) :
  normalize w <> [] ->
  if terminal_at (root t) (stored_form w)
  then insert w t = t
  else ((INT_MIN <= getWordCount t < INT_MAX)%Z ->
        getWordCount (insert w t) = (getWordCount t + 1)%Z) /\
       terminal_at (root (insert w t)) (stored_form w) = true.
Proof.
  intros N; destruct (terminal_at (root t) (stored_form w)) eqn:T.
  - unfold insert, stored_form in *.
    destruct (normalize w) as [|c cw]; [reflexivity|].
    rewrite (insert_from_stored _ _ T); now destruct t.
  - split.
    + unfold getWordCount; rewrite insert_wordCount, insert_from_snd.
      unfold stored_form in T; rewrite T.
      destruct (normalize w); [congruence|]; simpl; intros B.
      apply int_wrap_small; unfold INT_MIN, INT_MAX in *; lia.
    + apply terminal_at_insert; now left.
Qed.

Lemma X13_insert_stored_or_new_witness :
  (normalize (lit "a-b") <> [] /\
   insert (lit "a-b") (build [lit "ab"]) = build [lit "ab"]) /\
  (normalize (lit "Abc") <> [] /\
   (INT_MIN <= getWordCount (build [lit "ab"]) < INT_MAX)%Z /\
   getWordCount (insert (lit "Abc") (build [lit "ab"]))
   = (getWordCount (build [lit "ab"]) + 1)%Z /\
   terminal_at (root (insert (lit "Abc") (build [lit "ab"])))
     (stored_form (lit "Abc")) = true).
Proof.
  assert (N1 : normalize (lit "a-b") <> []) by (vm_compute; discriminate).
  assert (N2 : normalize (lit "Abc") <> []) by (vm_compute; discriminate).
  assert (B : (INT_MIN <= getWordCount (build [lit "ab"]) < INT_MAX)%Z)
    by (split; [discriminate | reflexivity]).
  split; [split; [exact N1|] | split; [exact N2 | split; [exact B|]]].
  - exact (X13_insert_stored_or_new (build [lit "ab"]) (lit "a-b") N1).
  - pose proof (X13_insert_stored_or_new (build [lit "ab"]) (lit "Abc") N2)
      as H.
    change (terminal_at (root (build [lit "ab"])) (stored_form (lit "Abc")))
      with false in H.
    split; [exact (proj1 H B) | exact (proj2 H)].
Defined.

(** X14. The index holds a set of words: two sequences of [insert]s
    with the same words in different orders give the same count and the
    same suggestions for every prefix. *)
Theorem X14_insert_order_irrelevant (ws ws' : list cstring) (P : cstring) :
  Permutation ws ws' ->
  getWordCount (build ws) = getWordCount (build ws') /\
  getSuggestions P (build ws) = getSuggestions P (build ws').
Proof.
  intros Pm; destruct (build_perm _ _ Pm) as (C & S); split; auto.
Qed.

Lemma X14_insert_order_irrelevant_witness :
  Permutation [lit "cat"; lit "car"] [lit "car"; lit "cat"] /\
  getWordCount (build [lit "cat"; lit "car"])
  = getWordCount (build [lit "car"; lit "cat"]) /\
  getSuggestions (lit "ca") (build [lit "cat"; lit "car"])
  = getSuggestions (lit "ca") (build [lit "car"; lit "cat"]).
Proof.
  assert (Pm : Permutation [lit "cat"; lit "car"] [lit "car"; lit "cat"])
    by apply perm_swap.
  split; [exact Pm|].
  exact (X14_insert_order_irrelevant _ _ (lit "ca") Pm).
Defined.

(** *** Invariants of the tree *)

Lemma every_node_node (Q : TrieNode -> Prop) (e : bool) cs :
  every_node Q (mkNode e cs) <->
  Q (mkNode e cs) /\ Forall (fun kc => every_node Q (snd kc)) cs.
Proof.
  simpl.
  assert (E : forall l : list (ascii * TrieNode),
    (fix each (cs : list (ascii * TrieNode)) : Prop :=
       match cs with
       | [] => True
       | (_, c) :: cs' => every_node Q c /\ each cs'
       end) l <-> Forall (fun kc => every_node Q (snd kc)) l).
  { induction l as [|[k c] l IH]; [split; auto|].
    rewrite Forall_cons_iff, IH; reflexivity. }
  rewrite E; reflexivity.
Qed.

Lemma every_node_newNode (Q : TrieNode -> Prop) :
  Q newNode -> every_node Q newNode.
Proof. intros H; apply every_node_node; split; [exact H|constructor]. Qed.

Lemma every_node_find (Q : TrieNode -> Prop) (n c : TrieNode) (ch : ascii) :
  every_node Q n -> find ch (children n) = Some c -> every_node Q c.
Proof.
  destruct n as [e cs]; rewrite every_node_node; simpl.
  intros (_ & F) H; apply find_In in H.
  rewrite Forall_forall in F; apply (F _ H).
Qed.

Lemma every_node_here (Q : TrieNode -> Prop) (n : TrieNode) :
  every_node Q n -> Q n.
Proof. destruct n; simpl; tauto. Qed.

(** What it takes to keep a property of nodes along the walk of
    [insert]: it holds of a fresh node, it survives the marking of a
    node, and it survives the update of the child on the way. *)
Lemma every_node_insert_from (Q : TrieNode -> Prop) (cleanWord : cstring) :
  Q newNode ->
  (forall e cs, Q (mkNode e cs) -> Q (mkNode true cs)) ->
  (forall e cs ch rest child,
     In ch cleanWord -> isalpha ch = true ->
     Q (mkNode e cs) ->
     Q (fst (insert_from rest child)) ->
     Q (mkNode e (set_child ch (fst (insert_from rest child)) cs))) ->
  forall n, every_node Q n -> every_node Q (fst (insert_from cleanWord n)).
Proof.
  intros Hnew Hmark Hset.
  induction cleanWord as [|ch w IH]; intros n E; simpl.
  - destruct n as [[] cs]; simpl; [assumption|].
    apply every_node_node in E; apply every_node_node.
    destruct E as (E & F); split; [now apply (Hmark false)|assumption].
  - assert (IH' : forall n, every_node Q n ->
                            every_node Q (fst (insert_from w n))).
    { apply IH; intros e cs c rest child I; apply Hset; now right. }
    destruct (isalpha ch) eqn:A; simpl; [|now apply IH'].
    set (child := match find ch (children n) with
                  | Some c => c | None => newNode end).
    assert (Ec : every_node Q child).
    { subst child; destruct (find ch (children n)) eqn:F.
      - eapply every_node_find; eassumption.
      - now apply every_node_newNode. }
    pose proof (IH' child Ec) as E'.
    pose proof (Hset (isEndOfWord n) (children n) ch w child
                  (or_introl eq_refl) A) as S.
    destruct (insert_from w child) as [c' inc]; simpl in *.
    destruct n as [e cs]; simpl in *.
    apply every_node_node in E; destruct E as (Qn & F).
    apply every_node_node; split.
    + apply S; [assumption | now apply every_node_here].
    + rewrite Forall_forall in *; intros kc I.
      destruct (set_child_In _ _ _ _ I) as [->|I']; auto.
Qed.

Lemma every_node_insert (Q : TrieNode -> Prop) (w : cstring) (t : Trie) :
  Q newNode ->
  (forall e cs, Q (mkNode e cs) -> Q (mkNode true cs)) ->
  (forall e cs ch rest child,
     In ch (normalize w) -> isalpha ch = true ->
     Q (mkNode e cs) ->
     Q (fst (insert_from rest child)) ->
     Q (mkNode e (set_child ch (fst (insert_from rest child)) cs))) ->
  every_node Q (root t) -> every_node Q (root (insert w t)).
Proof.
  intros Hnew Hmark Hset E; rewrite insert_root.
  destruct (normalize w) eqn:N; [assumption|]; rewrite <- N in *.
  now apply every_node_insert_from.
Qed.

Lemma normalize_letter_lower (w : cstring) (ch : ascii) :
  In ch (normalize w) -> isalpha ch = true -> islower ch = true.
Proof.
  unfold normalize, toLower; intros I A; apply in_map_iff in I.
  destruct I as (a & <- & _).
  now rewrite islower_tolower, <- isalpha_tolower.
Qed.

Lemma lower_keys_build (ws : list cstring) :
  every_node lower_keys (root (build ws)).
Proof.
  induction ws as [|w ws IH] using rev_ind.
  - apply every_node_newNode; constructor.
  - rewrite build_snoc; apply every_node_insert; try assumption.
    + constructor.
    + intros e cs H; exact H.
    + unfold lower_keys; simpl; intros e cs ch rest child I A H _.
      rewrite set_child_keys; destruct (find ch cs); [assumption|].
      apply Forall_app; split; [assumption|].
      constructor; [|constructor].
      eapply normalize_letter_lower; eassumption.
Qed.

Lemma lower_keys_at_most_26 (keys : list ascii) :
  NoDup keys -> Forall (fun k => islower k = true) keys ->
  List.length keys <= 26.
Proof.
  intros D L.
  change 26 with (List.length (map ascii_of_nat (seq 97 26))).
  apply NoDup_incl_length; [assumption|].
  intros k I; rewrite Forall_forall in L; specialize (L k I).
  unfold islower in L; bool_arith.
  apply in_map_iff; exists (code k); split.
  - apply ascii_nat_embedding.
  - apply in_seq; lia.
Qed.

Lemma small_alphabet_every (n : TrieNode) :
  well_formed n -> every_node lower_keys n -> every_node small_alphabet n.
Proof.
  induction n as [e cs IH] using TrieNode_nested_ind.
  rewrite well_formed_node, !every_node_node.
  intros (D & _ & W) (L & E); split.
  - repeat split; try assumption; simpl.
    rewrite <- (length_map fst); now apply lower_keys_at_most_26.
  - rewrite Forall_forall in *; intros kc I; apply IH; auto.
Qed.

(** X15. In every state the index can reach, every node has at most 26
    children, keyed by distinct lowercase letters, and every suggestion
    is made of lowercase letters only. *)
Theorem X15_lowercase_alphabet (ops : list Op) (P : cstring) :
  every_node small_alphabet (root (run ops emptyTrie)) /\
  Forall (fun y => forallb islower y = true)
         (getSuggestions P (run ops emptyTrie)).
Proof.
  split.
  - apply small_alphabet_every; [apply well_formed_run|].
    rewrite run_build; apply lower_keys_build.
  - apply Forall_forall; intros y I; rewrite run_build in I.
    apply In_getSuggestions in I; [|apply well_formed_build].
    destruct I as (s & -> & T); apply terminal_at_build in T.
    destruct T as (w & _ & _ & ->).
    apply forallb_forall; intros c I; apply filter_In in I.
    destruct I as (I & A); eapply normalize_letter_lower; eassumption.
Qed.

Lemma set_child_not_nil (ch : ascii) (c : TrieNode) m : set_child ch c m <> [].
Proof. destruct m as [|[k c0] m]; simpl; [|destruct (Ascii.eqb k ch)]; discriminate. Qed.

Lemma live_insert_from (cleanWord : cstring) :
  forall n, live (fst (insert_from cleanWord n)).
Proof.
  induction cleanWord as [|ch w IH]; intros n; simpl.
  - destruct (isEndOfWord n) eqn:E; left; [exact E | reflexivity].
  - destruct (isalpha ch); simpl; [|apply IH].
    destruct (insert_from w _) as [c' inc]; right; apply set_child_not_nil.
Qed.

Lemma live_children_build (ws : list cstring) :
  every_node live_children (root (build ws)).
Proof.
  induction ws as [|w ws IH] using rev_ind.
  - apply every_node_newNode; constructor.
  - rewrite build_snoc; apply every_node_insert; try assumption.
    + constructor.
    + intros e cs H; exact H.
    + unfold live_children; simpl; intros e cs ch rest child _ _ H _.
      rewrite Forall_forall in *; intros kc I.
      destruct (set_child_In _ _ _ _ I) as [->|I']; [|auto].
      apply live_insert_from.
Qed.

(** A node that ends a word or has a child, over a subtree without dead
    leaves, has a word below it. *)
Lemma words_not_nil (n : TrieNode) :
  live n -> every_node live_children n -> words n <> [].
Proof.
  induction n as [e cs IH] using TrieNode_nested_ind.
  rewrite every_node_node, words_node; unfold live, live_children; simpl.
  intros [->|N] (L & E); [discriminate|].
  destruct cs as [|[k c] cs]; [congruence|].
  inversion IH as [|? ? Hc _]; inversion L as [|? ? Lc _];
    inversion E as [|? ? Ec _]; subst; simpl in *.
  specialize (Hc Lc Ec).
  destruct (words c); [congruence|]; destruct e; discriminate.
Qed.

Lemma live_searchPrefix (p : cstring) :
  forall n m,
    every_node live_children n -> p <> [] -> searchPrefix n p = Some m ->
    live m /\ every_node live_children m.
Proof.
  induction p as [|k p IH]; intros n m E N; [congruence|]; simpl.
  destruct (find k (children n)) as [c|] eqn:F; [|discriminate].
  pose proof (every_node_find _ _ _ _ E F) as Ec.
  destruct p as [|k' p].
  - intros [= <-]; split; [|assumption].
    apply every_node_here in E; unfold live_children in E.
    rewrite Forall_forall in E; apply (E _ (find_In _ _ _ F)).
  - apply IH; [assumption|discriminate].
Qed.

(** X16. In every state the index can reach, no leaf but the root is left
    without a word: every child ends a word or has a child. For a prefix
    that is not empty after normalisation, there is no suggestion
    exactly when [searchPrefix] meets a missing edge. *)
Theorem X16_no_dead_leaf (ops : list Op) (P : cstring) :
  normalize P <> [] ->
  every_node live_children (root (run ops emptyTrie)) /\
  (getSuggestions P (run ops emptyTrie) = [] <->
   searchPrefix (root (run ops emptyTrie)) (normalize P) = None).
Proof.
  intros N.
  assert (E : every_node live_children (root (run ops emptyTrie)))
    by (rewrite run_build; apply live_children_build).
  split; [exact E|]; rewrite getSuggestions_words.
  destruct (searchPrefix _ _) as [m|] eqn:S; [|tauto].
  destruct (live_searchPrefix _ _ _ E N S) as (L & Em).
  pose proof (words_not_nil _ L Em) as Wn.
  split; [|discriminate].
  intros Z; apply (f_equal (@List.length cstring)) in Z.
  rewrite (Permutation_length (sort_perm _)), length_map in Z.
  destruct (words m); [congruence|discriminate].
Qed.

Lemma X16_no_dead_leaf_witness :
  normalize (lit "Ca") <> [] /\
  every_node live_children
    (root (run [OpInsert (lit "cat"); OpInsert (lit "dog")] emptyTrie)) /\
  (getSuggestions (lit "Ca")
     (run [OpInsert (lit "cat"); OpInsert (lit "dog")] emptyTrie) = [] <->
   searchPrefix
     (root (run [OpInsert (lit "cat"); OpInsert (lit "dog")] emptyTrie))
     (normalize (lit "Ca")) = None).
Proof.
  assert (N : normalize (lit "Ca") <> []) by (vm_compute; discriminate).
  split; [exact N|].
  exact (X16_no_dead_leaf [OpInsert (lit "cat"); OpInsert (lit "dog")]
           (lit "Ca") N).
Defined.

(** *** Allocation and release *)

Lemma destroyTrie_node (n : TrieNode) :
  destroyTrie n =
  list_sum (map (fun kc : ascii * TrieNode =>
                   let (_, c) := kc in destroyTrie c) (children n)) + 1.
Proof. now destruct n. Qed.

(** The walk of [insert] adds to the tree the nodes it allocates. *)
Lemma destroyTrie_insert_from (cleanWord : cstring) :
  forall n,
    destroyTrie (fst (insert_from cleanWord n))
    = destroyTrie n + insert_news cleanWord n.
Proof.
  induction cleanWord as [|ch w IH]; intros n; simpl.
  - destruct n as [[] cs]; simpl; lia.
  - destruct (isalpha ch) eqn:A; simpl; [|apply IH].
    set (child := match find ch (children n) with
                  | Some c => c | None => newNode end).
    pose proof (IH child) as H.
    destruct (insert_from w child) as [c' inc]; simpl in *.
    pose proof (set_child_sum destroyTrie ch c' (children n)) as S.
    rewrite (destroyTrie_node n); subst child.
    destruct (find ch (children n)); simpl in *; lia.
Qed.

Lemma insert_news_bound (cleanWord : cstring) :
  forall n, insert_news cleanWord n <= List.length (letters cleanWord).
Proof.
  induction cleanWord as [|ch w IH]; intros n; simpl; [lia|].
  destruct (isalpha ch); simpl; [|apply IH].
  destruct (find ch (children n)) as [c|].
  - specialize (IH c); lia.
  - specialize (IH newNode); lia.
Qed.

Lemma insert_news_found (cleanWord : cstring) :
  forall n,
    searchPrefix n (letters cleanWord) <> None ->
    insert_news cleanWord n = 0.
Proof.
  induction cleanWord as [|ch w IH]; intros n; simpl; [reflexivity|].
  destruct (isalpha ch); simpl; [|apply IH].
  destruct (find ch (children n)) as [c|]; [apply IH | congruence].
Qed.

Lemma destroyTrie_step (op : Op) (t : Trie) :
  destroyTrie (root (fst (step op t))) = destroyTrie (root t) + news op t.
Proof.
  destruct op as [w| |]; simpl; try lia.
  rewrite insert_root; destruct (normalize w) eqn:N; [lia|].
  rewrite <- N; apply destroyTrie_insert_from.
Qed.

Lemma destroyTrie_run (ops : list Op) :
  forall t,
    destroyTrie (root (run ops t)) = destroyTrie (root t) + allocations ops t.
Proof.
  induction ops as [|op ops IH]; intros t; simpl; [lia|].
  change (run (op :: ops) t) with (run ops (fst (step op t))).
  rewrite IH, destroyTrie_step; lia.
Qed.

(** X17. The destructor releases what was allocated: after any sequence
    of calls on a fresh index, [destroyTrie] on the root executes as many
    [delete]s as there were [new TrieNode()], the one of the constructor
    and those of the [insert]s. One [insert] allocates at most one node
    per letter of the word, and none if the path of its letters is in
    the tree already. *)
Theorem X17_destroy_releases_allocated (ops : list Op) (w : cstring) (t : Trie) :
  destroyTrie (root (run ops emptyTrie)) = 1 + allocations ops emptyTrie /\
  news (OpInsert w) t <= List.length (stored_form w) /\
  (searchPrefix (root t) (stored_form w) <> None -> news (OpInsert w) t = 0).
Proof.
  split; [rewrite destroyTrie_run; reflexivity|].
  unfold news, stored_form; destruct (normalize w) eqn:N; rewrite <- ?N.
  - split; [lia|reflexivity].
  - split; [apply insert_news_bound | apply insert_news_found].
Qed.

(** *** The "add word" branch of [main] *)

Lemma is_blank_iff (word : cstring) :
  is_blank word = true <-> normalize word = [].
Proof.
  rewrite normalize_nil_iff, <- find_first_None; unfold is_blank.
  destruct word as [|c word]; [simpl; tauto|].
  destruct (find_first_not_of (c :: word)); split; congruence.
Qed.

(** X18. The test by which [main] refuses to add a word is the test by
    which [insert] would ignore it: [main] prints its "cannot add empty
    word" exactly for the texts whose normalised form is empty, that is
    for whitespace-only texts, so the early return of [insert] is never
    taken from this branch. *)
Theorem X18_blank_test_agrees (word : cstring) :
  (is_blank word = true <-> normalize word = []) /\
  (is_blank word = true <-> forallb is_space word = true) /\
  (is_blank word = false -> forall t, root (insert word t)
     = fst (insert_from (normalize word) (root t))).
Proof.
  split; [apply is_blank_iff|]; split.
  - rewrite is_blank_iff; apply normalize_nil_iff.
  - intros B t; rewrite insert_root.
    destruct (normalize word) eqn:N; [|reflexivity].
    apply is_blank_iff in N; congruence.
Qed.

(** X19. Which message the "add word" branch prints, and what it did,
    for an index whose count is an [int] below [INT_MAX].
    "Cannot add empty word": the text is whitespace only, the index is
    untouched. "Already exists": the stored form of the word (its
    letters, lowercased) ended a word before, the index is untouched.
    "Successfully added" with the new count: it did not, the count is
    one more than before and the stored form ends a word now. *)
Theorem X19_addWord_messages (word : cstring) (trie : Trie) :
  (INT_MIN <= getWordCount trie < INT_MAX)%Z ->
  match snd (addWord word trie) with
  | CannotAddEmpty =>
      normalize word = [] /\ fst (addWord word trie) = trie
  | AlreadyExists =>
      normalize word <> [] /\
      terminal_at (root trie) (stored_form word) = true /\
      fst (addWord word trie) = trie
  | SuccessfullyAdded newCount =>
      normalize word <> [] /\
      terminal_at (root trie) (stored_form word) = false /\
      newCount = (getWordCount trie + 1)%Z /\
      getWordCount (fst (addWord word trie)) = newCount /\
      terminal_at (root (fst (addWord word trie))) (stored_form word) = true
  end.
Proof.
  intros R; unfold addWord; destruct (is_blank word) eqn:B; simpl.
  - split; [now apply is_blank_iff | reflexivity].
  - assert (N : normalize word <> [])
      by (intros N; apply is_blank_iff in N; congruence).
    pose proof (insert_from_snd (normalize word) (root trie)) as S.
    pose proof (insert_wordCount word trie) as C.
    destruct (terminal_at (root trie) (letters (normalize word))) eqn:T.
    + assert (I : insert word trie = trie).
      { unfold insert; destruct (normalize word) as [|c cw]; [reflexivity|].
        rewrite (insert_from_stored _ _ T); now destruct trie. }
      rewrite I; unfold getWordCount.
      rewrite Z.gtb_ltb, Z.ltb_irrefl.
      simpl; repeat split; assumption.
    + unfold getWordCount in *; simpl in S; rewrite S in C; simpl in C.
      destruct (normalize word) as [|c cw] eqn:E; [congruence|].
      rewrite <- E in *.
      rewrite int_wrap_small in C by (unfold INT_MIN, INT_MAX in *; lia).
      rewrite C, Z.gtb_ltb.
      replace (wordCount trie <? wordCount trie + 1)%Z with true
        by (symmetry; apply Z.ltb_lt; lia).
      simpl; repeat split; try assumption.
      apply terminal_at_insert; left; split; [assumption|reflexivity].
Qed.

Lemma X19_addWord_messages_witness :
  (INT_MIN <= getWordCount (build [lit "ab"]) < INT_MAX)%Z /\
  snd (addWord (lit "Abc") (build [lit "ab"])) = SuccessfullyAdded 2 /\
  normalize (lit "Abc") <> [] /\
  terminal_at (root (build [lit "ab"])) (stored_form (lit "Abc")) = false /\
  2%Z = (getWordCount (build [lit "ab"]) + 1)%Z /\
  getWordCount (fst (addWord (lit "Abc") (build [lit "ab"]))) = 2%Z /\
  terminal_at (root (fst (addWord (lit "Abc") (build [lit "ab"]))))
    (stored_form (lit "Abc")) = true.
Proof.
  assert (B : (INT_MIN <= getWordCount (build [lit "ab"]) < INT_MAX)%Z)
    by (split; [discriminate | reflexivity]).
  split; [exact B|]; split; [reflexivity|].
  exact (X19_addWord_messages (lit "Abc") (build [lit "ab"]) B).
Defined.
